(** * Asante uploader core: struct codec ([util.js]) and event simulator
      ([lib/asante/asanteSimulator.js])

    A shallow embedding of the two modules and the properties of their
    specification.

    - [Util] embeds [src/util.js]: byte buffers are [Uint8Array]s (lists of
      bytes; a store past the end is ignored, a read past the end gives
      [undefined]), JavaScript's 32-bit bit operators are written out on [Z].
    - [Simulator] embeds [src/lib/asante/asanteSimulator.js]: the closure
      variables [events], [currBasal], [currTimestamp] become a state record
      threaded through a state-and-exception monad. *)

From Stdlib Require Import ZArith Lia List String Ascii QArith.
From Stdlib.Strings Require Import Byte.
From Stdlib Require Import Sorting.Sorted Sorting.Permutation OrderedTypeEx.
From stdpp Require Import base option list gmap strings.

Local Open Scope Z_scope.

(** ** Completions: a JavaScript call returns normally or throws *)

Inductive completion (E A : Type) : Type :=
| Return (a : A)
| Throw (e : E).
Arguments Return {E A} a.
Arguments Throw {E A} e.

(** * The struct codec, [src/util.js] *)

Module Util.

(** The values the codec computes with: integral numbers, [NaN] and
    [undefined] (an element read past the end of a buffer). All integers
    that occur are below 2^53, where JavaScript's double arithmetic is
    exact, so [+] and [*] on numbers are those of [Z]. *)
Inductive jsv : Type :=
| Undefined
| NaN
| Num (z : Z).

(** ToInt32: the operand conversion of [<<], [>>] and [&]. *)
Definition ToInt32 (z : Z) : Z := (z + 2 ^ 31) mod 2 ^ 32 - 2 ^ 31.

Definition toInt32 (v : jsv) : Z :=
  match v with
  | Num z => ToInt32 z
  | Undefined | NaN => 0
  end.

(** [a << n], [a >> n] (sign-propagating) and [a & b]. *)
Definition js_shl (a : jsv) (n : Z) : jsv :=
  Num (ToInt32 (Z.shiftl (toInt32 a) (n mod 32))).
Definition js_shr (a : jsv) (n : Z) : jsv :=
  Num (Z.shiftr (toInt32 a) (n mod 32)).
Definition js_and (a b : jsv) : jsv :=
  Num (Z.land (toInt32 a) (toInt32 b)).

(** [a + b] and [a * b] on numbers; [undefined] converts to [NaN]. *)
Definition js_add (a b : jsv) : jsv :=
  match a, b with
  | Num x, Num y => Num (x + y)
  | _, _ => NaN
  end.
Definition js_mul (a b : jsv) : jsv :=
  match a, b with
  | Num x, Num y => Num (x * y)
  | _, _ => NaN
  end.

(** A [Uint8Array]. *)
Abbreviation buffer := (list byte).

Definition byte_of_Z (z : Z) : byte :=
  default x00 (Byte.of_N (Z.to_N (z mod 256))).
Definition Z_of_byte (b : byte) : Z := Z.of_N (Byte.to_N b).

(** [b[i]] *)
Definition read (b : buffer) (i : nat) : jsv :=
  match b !! i with
  | Some x => Num (Z_of_byte x)
  | None => Undefined
  end.

(** [b[i] = v]: the element conversion is ToUint8 (modulo 2^8), and an
    index past the end leaves the array as it is. *)
Definition ToUint8 (v : jsv) : byte :=
  match v with
  | Num z => byte_of_Z z
  | Undefined | NaN => x00
  end.

Definition write (b : buffer) (i : nat) (v : jsv) : buffer :=
  <[ i := ToUint8 v ]> b.

(** [String.fromCharCode(v)] for the element values of a buffer;
    [undefined] converts to the code unit 0. *)
Definition fromCharCode (v : jsv) : ascii := ascii_of_byte (ToUint8 v).

(** [for (var i=start; i<len; ++i) s += String.fromCharCode(bytes[i])],
    with [n] the number of iterations left. *)
Fixpoint extractString_loop (bytes : buffer) (i n : nat) (s : string) : string :=
  match n with
  | O => s
  | S n' =>
      extractString_loop bytes (S i) n'
        (s ++ String (fromCharCode (read bytes i)) EmptyString)%string
  end.

(** [extractString(bytes, start, len)]; [len = None] is a call without the
    third argument. [!len] also holds of a supplied [0]. *)
Definition extractString (bytes : buffer) (start : nat) (len : option nat) : string :=
  let len :=
    match len with
    | None | Some O => length bytes
    | Some l => l
    end in
  extractString_loop bytes start (len - start)%nat EmptyString.

Definition extractInt (b : buffer) (st : nat) : jsv :=
  js_add (js_add (js_add (js_mul (Num 16777216) (read b (st + 3)%nat))
                         (js_shl (read b (st + 2)%nat) 16))
                 (js_shl (read b (st + 1)%nat) 8))
         (read b st).

Definition extractShort (b : buffer) (st : nat) : jsv :=
  js_add (js_shl (read b (st + 1)%nat) 8) (read b st).

Definition extractByte (b : buffer) (st : nat) : jsv := read b st.

Definition storeInt (v : Z) (b : buffer) (st : nat) : buffer :=
  let b := write b st (js_and (Num v) (Num 255)) in
  let b := write b (st + 1)%nat (js_and (js_shr (Num v) 8) (Num 255)) in
  let b := write b (st + 2)%nat (js_and (js_shr (Num v) 16) (Num 255)) in
  write b (st + 3)%nat (js_and (js_shr (Num v) 24) (Num 255)).

Definition storeShort (v : Z) (b : buffer) (st : nat) : buffer :=
  let b := write b st (js_and (Num v) (Num 255)) in
  write b (st + 1)%nat (js_and (js_shr (Num v) 8) (Num 255)).

Definition storeByte (v : Z) (b : buffer) (st : nat) : buffer :=
  write b st (js_and (Num v) (Num 255)).

(** An entry of the table [structs]; [put] and [get] are the functions the
    source names by string. *)
Record struct : Type := mkStruct {
  len : nat;
  put : Z -> buffer -> nat -> buffer;
  get : buffer -> nat -> jsv
}.

(** [util.structs[c]]: [None] is [undefined]. *)
Definition structs (c : ascii) : option struct :=
  if Ascii.eqb c "I" then Some (mkStruct 4 storeInt extractInt)
  else if Ascii.eqb c "s" then Some (mkStruct 2 storeShort extractShort)
  else if Ascii.eqb c "b" then Some (mkStruct 1 storeByte extractByte)
  else None.

(** Reading a property of [undefined] throws a [TypeError]. *)
Inductive exn : Type :=
| TypeError.

Fixpoint structlen_loop (s : list ascii) (t : nat) : completion exn nat :=
  match s with
  | [] => Return t
  | c :: s' =>
      match structs c with
      | Some st => structlen_loop s' (t + len st)%nat
      | None => Throw TypeError
      end
  end.

Definition structlen (s : string) : completion exn nat :=
  structlen_loop (list_ascii_of_string s) 0%nat.

(** What a call leaves behind: the buffer, the lines written with
    [console.log], and how the call completed. *)
Record outcome (A : Type) : Type := mkOutcome {
  out_buf : buffer;
  out_console : list string;
  out_completion : completion exn A
}.
Arguments mkOutcome {A} _ _ _.
Arguments out_buf {A} _.
Arguments out_console {A} _.
Arguments out_completion {A} _.

(** The loop of [pack] over [format[i]] and [arguments[i+3]]; the guard of
    [pack] makes the two lists equally long. *)
Fixpoint pack_loop (buf : buffer) (offset : nat) (format : list ascii)
    (args : list Z) (ctr : nat) : outcome nat :=
  match format, args with
  | c :: format', v :: args' =>
      match structs c with
      | Some st =>
          pack_loop (put st v buf (offset + ctr)%nat) offset format' args'
            (ctr + len st)%nat
      | None => mkOutcome buf [] (Throw TypeError)
      end
  | _, _ => mkOutcome buf [] (Return ctr)
  end.

(** [pack(buf, offset, format, ...args)] *)
Definition pack (buf : buffer) (offset : nat) (format : string) (args : list Z)
    : outcome nat :=
  if negb (Nat.eqb (String.length format) (length args)) then
    mkOutcome buf ["Bad args to pack!"%string] (Return 0%nat)
  else
    match structlen format with
    | Throw e => mkOutcome buf [] (Throw e)
    | Return _ => pack_loop buf offset (list_ascii_of_string format) args 0%nat
    end.

(** The loop of [unpack] over [format[i]] and [names[i]], filling [result]. *)
Fixpoint unpack_loop (buf : buffer) (offset : nat) (format : list ascii)
    (names : list string) (ctr : nat) (result : gmap string jsv)
    : completion exn (gmap string jsv * nat) :=
  match format, names with
  | c :: format', name :: names' =>
      match structs c with
      | Some st =>
          unpack_loop buf offset format' names' (ctr + len st)%nat
            (<[ name := get st buf (offset + ctr)%nat ]> result)
      | None => Throw TypeError
      end
  | _, _ => Return (result, ctr)
  end.

(** [unpack(buf, offset, format, names)]: the result object maps each name
    to the value read and ["unpack_length"] to the number of bytes read. *)
Definition unpack (buf : buffer) (offset : nat) (format : string)
    (names : list string) : outcome (gmap string jsv) :=
  if negb (Nat.eqb (String.length format) (length names)) then
    mkOutcome buf ["Bad args to unpack!"%string] (Return ∅)
  else
    match unpack_loop buf offset (list_ascii_of_string format) names 0%nat ∅ with
    | Throw e => mkOutcome buf [] (Throw e)
    | Return (result, ctr) =>
        mkOutcome buf []
          (Return (<[ "unpack_length"%string := Num (Z.of_nat ctr) ]> result))
    end.

(** [copyBytes(buf, offset, bytes, bytecount)] *)
Fixpoint copyBytes_loop (buf : buffer) (offset : nat) (bytes : buffer)
    (i n : nat) : buffer :=
  match n with
  | O => buf
  | S n' => copyBytes_loop (write buf (offset + i)%nat (read bytes i)) offset bytes (S i) n'
  end.

Definition copyBytes (buf : buffer) (offset : nat) (bytes : buffer)
    (bytecount : nat) : buffer * nat :=
  (copyBytes_loop buf offset bytes 0%nat bytecount, bytecount).

(** *** Vocabulary of the specification *)

(** "[v] is within the declared width range" of the field with code [c]. *)
Definition fits (c : ascii) (v : Z) : Prop :=
  exists st, structs c = Some st /\ 0 <= v < 2 ^ (8 * Z.of_nat (len st)).

(** The number that a run of bytes holds, least significant byte first. *)
Definition le_value (bs : list byte) : Z :=
  foldr (fun b acc => Z_of_byte b + 256 * acc) 0 bs.

(** The bytes of the field of width [n] at offset [o]. *)
Definition field (b : buffer) (o n : nat) : list byte := take n (drop o b).

(** The width that [structs] gives a code; 0 for a code it does not have. *)
Definition width (c : ascii) : nat :=
  match structs c with
  | Some st => len st
  | None => 0%nat
  end.

(** The sum of the widths of a format. *)
Definition total_width (format : list ascii) : nat :=
  foldr (fun c n => (width c + n)%nat) 0%nat format.

(** The codes that [structs] has. *)
Definition known (c : ascii) : Prop := is_Some (structs c).

(** The characters of a run of bytes, one per byte. *)
Definition chars (bs : list byte) : string :=
  string_of_list_ascii (map ascii_of_byte bs).

End Util.

(** * The event simulator, [src/lib/asante/asanteSimulator.js] *)

(** ** A state-and-exception monad

    A handler runs on the simulator's state and either returns or throws;
    the state it leaves behind is observable in both cases. *)

Section StateExn.
Context {S E : Type}.

Definition M (A : Type) : Type := S -> completion E A * S.

Definition ret {A : Type} (a : A) : M A := fun s => (Return a, s).

Definition bind {A B : Type} (m : M A) (k : A -> M B) : M B :=
  fun s =>
    match m s with
    | (Return a, s') => k a s'
    | (Throw e, s') => (Throw e, s')
    end.

Definition throw {A : Type} (e : E) : M A := fun s => (Throw e, s).

Definition gets {A : Type} (f : S -> A) : M A := fun s => (Return (f s), s).

Definition modify (f : S -> S) : M unit := fun s => (Return tt, f s).
End StateExn.
Arguments M : clear implicits.

Declare Scope sim_scope.
Delimit Scope sim_scope with sim.
Notation "x <- c1 ;; c2" := (bind c1 (fun x => c2))
  (at level 100, c1 at next level, right associativity) : sim_scope.
Notation "c1 ;; c2" := (bind c1 (fun _ => c2))
  (at level 100, right associativity) : sim_scope.

(** ** Event objects *)

Module Event.

(** The values of the loosely typed fields of an event. A number is a
    rational here: the source only asks whether it is zero. *)
Inductive jsval : Type :=
| JUndefined
| JNull
| JBool (b : bool)
| JNum (q : Q)
| JNaN
| JStr (s : string).

(** ToBoolean: what [!v] and [v || w] test. *)
Definition truthy (v : jsval) : bool :=
  match v with
  | JUndefined | JNull | JNaN => false
  | JBool b => b
  | JNum q => negb (Qeq_bool q 0)
  | JStr s => negb (String.eqb s EmptyString)
  end.

(** [v === 0] *)
Definition strict_eq_0 (v : jsval) : bool :=
  match v with
  | JNum q => Qeq_bool q 0
  | _ => false
  end.

(** An event object. [type] and [time] are on every event; the other
    fields are [None] where the object has no such property. [time] is a
    device timestamp such as ["2014-11-05T12:00:00"]: a string of ASCII
    characters whose lexical order is its chronological order. [payload] holds the
    properties the simulator never looks at. *)
#[local] Set Warnings "-register-all".
Inductive event : Type := mkEvent {
  type : string;
  time : string;
  duration : option Z;
  scheduleName : option string;
  previous : option event;
  normal : option jsval;
  expectedNormal : option jsval;
  bolus : option event;
  payload : list (string * jsval)
}.

(** [o.p] for a property that may be missing. *)
Definition prop (p : option jsval) : jsval := default JUndefined p.

(** *** The event builder

    The basal events handed to the simulator are builder objects of
    [lib/objectBuilder.js], which is not among the sources. *)

(** Modelled from the spec: [objectBuilder.js] is missing; "If
    [openBasal.duration] is unset": [isAssigned('duration')] tells whether
    the duration has been set. *)
Definition isAssigned_duration (e : event) : bool :=
  match duration e with
  | Some _ => true
  | None => false
  end.

(** Modelled from the spec: [objectBuilder.js] is missing; "compute
    [duration] ... and assign it": the setter of [duration]. *)
Definition with_duration (d : Z) (e : event) : event :=
  mkEvent (type e) (time e) (Some d) (scheduleName e) (previous e)
    (normal e) (expectedNormal e) (bolus e) (payload e).

(** Modelled from the spec: [objectBuilder.js] is missing; "Set
    [openBasal.scheduleName = "Unknown"]": the setter of [scheduleName]. *)
Definition with_scheduleName (n : string) (e : event) : event :=
  mkEvent (type e) (time e) (duration e) (Some n) (previous e)
    (normal e) (expectedNormal e) (bolus e) (payload e).

(** Modelled from the spec: [objectBuilder.js] is missing; "mark it closed
    (no further mutation)": [done()] gives the finished record, with the
    fields the builder holds. *)
Definition done (e : event) : event := e.

(** [_.omit(e, 'previous')]: a copy of [e] without the property. *)
Definition omit_previous (e : event) : event :=
  mkEvent (type e) (time e) (duration e) (scheduleName e) None
    (normal e) (expectedNormal e) (bolus e) (payload e).

(** [event.previous = p] *)
Definition set_previous (p : event) (e : event) : event :=
  mkEvent (type e) (time e) (duration e) (scheduleName e) (Some p)
    (normal e) (expectedNormal e) (bolus e) (payload e).

End Event.

Module Simulator.
Import Event.

(** *** The state of one simulator

    The variables [events], [currBasal] and [currTimestamp] of the closure
    that [make] returns; [None] is [null]. Objects are held by value: an
    event is handed to the simulator once and not touched by the caller
    afterwards. *)
Record sim : Type := mkSim {
  events : list event;
  currBasal : option event;
  currTimestamp : option string
}.

(** The [Error] that [ensureTimestamp] throws; its message is formatted
    from the current timestamp and the offending event. *)
Inductive exn : Type :=
| OrderingViolation (current : option string) (got : event).

(** [exports.make(config)]: the state of a new simulator. *)
Definition make : sim := mkSim [] None None.

Section Handlers.

(** [Date.parse]: the instant of a timestamp, in milliseconds; the
    timestamps are well formed, so it is a number. *)
Variable Date_parse : string -> Z.

Local Open Scope sim_scope.

(** [currTimestamp > t] for a timestamp [t]. Two strings compare by code
    units; [null > t] compares numbers, and a timestamp converts to [NaN],
    which makes the comparison false. *)
Definition js_gt (currTimestamp : option string) (t : string) : bool :=
  match currTimestamp with
  | None => false
  | Some c => String.ltb t c
  end.

Definition setCurrBasal (basal : event) : M sim exn unit :=
  modify (fun s => mkSim (events s) (Some basal) (currTimestamp s)).

Definition setCurrTimestamp (t : string) : M sim exn unit :=
  modify (fun s => mkSim (events s) (currBasal s) (Some t)).

(** [events.push(e)] *)
Definition push (e : event) : M sim exn unit :=
  modify (fun s => mkSim (events s ++ [e]) (currBasal s) (currTimestamp s)).

Definition ensureTimestamp (e : event) : M sim exn event :=
  ts <- gets currTimestamp ;;
  if js_gt ts (time e) then
    throw (OrderingViolation ts e)
  else
    setCurrTimestamp (time e) ;;
    ret e.

Definition simpleSimulate (e : event) : M sim exn unit :=
  ensureTimestamp e ;;
  push e.

Definition alarm (event : event) : M sim exn unit := simpleSimulate event.

Definition basal (event : event) : M sim exn unit :=
  ensureTimestamp event ;;
  cb <- gets currBasal ;;
  event <-
    match cb with
    | Some currBasal =>
        let currBasal :=
          if negb (isAssigned_duration currBasal) then
            with_duration (Date_parse (time event) - Date_parse (time currBasal))
              currBasal
          else currBasal in
        let currBasal := done (with_scheduleName "Unknown" currBasal) in
        setCurrBasal currBasal ;;
        let event := set_previous (omit_previous currBasal) event in
        push currBasal ;;
        ret event
    | None => ret event
    end ;;
  setCurrBasal event.

Definition bolus (event : event) : M sim exn unit := simpleSimulate event.
Definition changeDeviceTime (event : event) : M sim exn unit := simpleSimulate event.
Definition changeReservoir (event : event) : M sim exn unit := simpleSimulate event.
Definition finalBasal : M sim exn unit := ret tt.
Definition resume (event : event) : M sim exn unit := simpleSimulate event.
Definition settings (event : event) : M sim exn unit := simpleSimulate event.
Definition smbg (event : event) : M sim exn unit := simpleSimulate event.
Definition suspend (event : event) : M sim exn unit := simpleSimulate event.
Definition wizard (event : event) : M sim exn unit := simpleSimulate event.

End Handlers.

(** *** Retrieval *)

(** [_.sortBy(collection, callback)] of lodash: every element is wrapped
    with its criterion and its index, the wrappers are sorted with
    [compareAscending], which falls back on the index when the criteria are
    equal, and the elements are unwrapped. The criteria here are strings. *)
Section SortBy.
Context {A : Type}.

Record entry : Type := mkEntry {
  criteria : string;
  index : nat;
  value : A
}.

Definition compareAscending (a b : entry) : Z :=
  if negb (String.eqb (criteria a) (criteria b)) then
    if String.ltb (criteria b) (criteria a) then 1
    else if String.ltb (criteria a) (criteria b) then -1
    else Z.of_nat (index a) - Z.of_nat (index b)
  else Z.of_nat (index a) - Z.of_nat (index b).

(** [Array.prototype.sort(compare)]. [compareAscending] orders the
    wrappers totally, since their indices differ, so the sorted array does
    not depend on the algorithm; insertion sort stands for the engine's. *)
Fixpoint sort_insert (compare : entry -> entry -> Z) (x : entry)
    (l : list entry) : list entry :=
  match l with
  | [] => [x]
  | y :: l' =>
      if compare x y <=? 0 then x :: y :: l'
      else y :: sort_insert compare x l'
  end.

Definition Array_sort (compare : entry -> entry -> Z) (l : list entry)
    : list entry :=
  foldr (sort_insert compare) [] l.

Fixpoint wrap (callback : A -> string) (i : nat) (l : list A) : list entry :=
  match l with
  | [] => []
  | x :: l' => mkEntry (callback x) i x :: wrap callback (S i) l'
  end.

Definition sortBy (collection : list A) (callback : A -> string) : list A :=
  map value (Array_sort compareAscending (wrap callback 0%nat collection)).
End SortBy.
Arguments entry : clear implicits.

(** The callback that [getEvents] passes to [_.filter]. *)
Definition getEvents_filter (event : event) : bool :=
  if String.eqb (type event) "bolus" then
    if strict_eq_0 (prop (normal event))
       && negb (truthy (prop (expectedNormal event)))
    then false
    else true
  else if String.eqb (type event) "wizard" then
    match Event.bolus event with
    | Some bolus =>
        if strict_eq_0 (prop (normal bolus))
           && negb (truthy (prop (expectedNormal bolus)))
        then false
        else true
    | None => true
    end
  else true.

Definition getEvents (s : sim) : list event :=
  sortBy (List.filter getEvents_filter (events s)) time.

(** *** Driving a simulator

    The methods of the object that [make] returns, and a caller that feeds
    a sequence of events, each to its method; an exception ends the feed. *)
Inductive method : Type :=
| Alarm | Basal | Bolus | ChangeDeviceTime | ChangeReservoir
| Resume | Settings | Smbg | Suspend | Wizard.

Definition method_eq_dec (m n : method) : {m = n} + {m <> n}.
Proof. decide equality. Defined.

Section Feed.
Variable Date_parse : string -> Z.
Local Open Scope sim_scope.

(** The record that closing [open] at the arrival of [next] appends to the
    log, written out field by field. *)
Definition closed (open next : event) : event :=
  mkEvent (type open) (time open)
    (match duration open with
     | Some d => Some d
     | None => Some (Date_parse (time next) - Date_parse (time open))
     end)
    (Some "Unknown"%string) (previous open)
    (normal open) (expectedNormal open) (Event.bolus open) (payload open).

Definition call (m : method) (e : event) : M sim exn unit :=
  match m with
  | Alarm => alarm e
  | Basal => basal Date_parse e
  | Bolus => bolus e
  | ChangeDeviceTime => changeDeviceTime e
  | ChangeReservoir => changeReservoir e
  | Resume => resume e
  | Settings => settings e
  | Smbg => smbg e
  | Suspend => suspend e
  | Wizard => wizard e
  end.

Fixpoint feed (calls : list (method * event)) : M sim exn unit :=
  match calls with
  | [] => ret tt
  | (m, e) :: calls' => call m e ;; feed calls'
  end.
End Feed.

(** *** Vocabulary of the specification *)

(** "[event.time >= lastTimestamp] (or [lastTimestamp] unset)". *)
Definition in_order (s : sim) (e : event) : Prop :=
  match currTimestamp s with
  | None => True
  | Some t => String.leb t (time e) = true
  end.

(** "Stable sort ascending by [time] (ties preserve original relative
    order)", as a sort of its own to compare [_.sortBy] with: insertion
    from the right, each element going before the first one that is not
    below it. *)
Fixpoint stable_insert {A : Type} (key : A -> string) (x : A) (l : list A)
    : list A :=
  match l with
  | [] => [x]
  | y :: l' =>
      if String.leb (key x) (key y) then x :: y :: l'
      else y :: stable_insert key x l'
  end.

Definition stable_sort {A : Type} (key : A -> string) (l : list A) : list A :=
  foldr (stable_insert key) [] l.

(** A wrapper made by [sortBy] carries the key of its element. *)
Definition wrapped {A : Type} (key : A -> string) (e : entry A) : Prop :=
  criteria e = key (value e).

(** Non-decreasing keys. *)
Definition key_le {A : Type} (key : A -> string) (a b : A) : Prop :=
  String.leb (key a) (key b) = true.

(** The records with timestamp [t], in the order of the list. *)
Definition at_time (t : string) (l : list event) : list event :=
  List.filter (fun e => String.eqb (time e) t) l.

(** "[normal == 0] and [expectedNormal] is absent", with absence as the
    source tests it: the property is missing or holds a falsy value. *)
Definition degenerate (b : event) : Prop :=
  (exists q, normal b = Some (JNum q) /\ (q == 0)%Q)
  /\ (expectedNormal b = None
      \/ exists v, expectedNormal b = Some v /\ truthy v = false).

(** The records that retrieval drops. *)
Definition dropped (e : event) : Prop :=
  (type e = "bolus"%string /\ degenerate e)
  \/ (type e = "wizard"%string
      /\ exists b, Event.bolus e = Some b /\ degenerate b).

(** What identifies an event object in a model that holds objects by
    value: the fields that the simulator never writes. *)
Definition core (e : event) : event :=
  mkEvent (type e) (time e) None None None
    (normal e) (expectedNormal e) (Event.bolus e) (payload e).

(** The calls to [basal] and the calls to the other handlers. *)
Definition is_basal (c : method * event) : bool :=
  if method_eq_dec (fst c) Basal then true else false.

(** 1 if a segment is open, 0 if none is. *)
Definition open_count (s : sim) : nat :=
  match currBasal s with
  | Some _ => 1%nat
  | None => 0%nat
  end.

(** The duration a segment is logged with when the event [next] closes
    it. *)
Definition closing_duration (Date_parse : string -> Z) (seg next : event)
    : option Z :=
  match duration seg with
  | Some d => Some d
  | None => Some (Date_parse (time next) - Date_parse (time seg))
  end.

(** Sample events and a sample clock, for the worked examples. *)
Definition basal_at (t : string) (d : option Z) (n : option string) : event :=
  mkEvent "basal" t d n None None None None [("rate"%string, JNum (3 # 4))].

Definition bolus_at (t : string) (n : jsval) (expected : option jsval) : event :=
  mkEvent "bolus" t None None None (Some n) expected None [].

Definition wizard_at (t : string) (b : option event) : event :=
  mkEvent "wizard" t None None None None None b [].

Definition smbg_at (t : string) : event :=
  mkEvent "smbg" t None None None None None None [("value"%string, JNum 101)].

Definition sample_Date_parse (t : string) : Z :=
  if String.eqb t "2014-11-05T12:00:00" then 1415188800000
  else if String.eqb t "2014-11-05T12:30:00" then 1415190600000
  else if String.eqb t "2014-11-05T13:00:00" then 1415192400000
  else 0.

End Simulator.

(** * Properties of the codec *)

Module UtilFacts.
Import Util.
#[local] Set Warnings "-clear-no-such-hyp".

Lemma ToInt32_mod256 (z : Z) : ToInt32 z mod 256 = z mod 256.
Proof.
  unfold ToInt32. change (2 ^ 31) with 2147483648.
  change (2 ^ 32) with 4294967296.
  Z.div_mod_to_equations. lia.
Qed.

Lemma ToInt32_small (z : Z) : -2147483648 <= z < 2147483648 -> ToInt32 z = z.
Proof.
  intros Hz. unfold ToInt32. change (2 ^ 31) with 2147483648.
  change (2 ^ 32) with 4294967296.
  Z.div_mod_to_equations. lia.
Qed.

Lemma Z_of_byte_of_Z (z : Z) : 0 <= z < 256 -> Z_of_byte (byte_of_Z z) = z.
Proof.
  intros Hz. unfold Z_of_byte, byte_of_Z.
  rewrite Z.mod_small by lia.
  destruct (Byte.of_N (Z.to_N z)) as [b|] eqn:Hb.
  - apply Byte.to_of_N in Hb. simpl. rewrite Hb. lia.
  - apply Byte.of_N_None_iff in Hb. lia.
Qed.

Lemma byte_of_Z_mod (z : Z) : byte_of_Z (z mod 256) = byte_of_Z z.
Proof. unfold byte_of_Z. now rewrite Z.mod_mod by lia. Qed.

(** The byte stored by [v & 0xFF] and by [(v >> s) & 0xFF], for the
    shifts of the source. *)
Lemma ToUint8_and (v : Z) :
  ToUint8 (js_and (Num v) (Num 255)) = byte_of_Z v.
Proof.
  unfold js_and, toInt32, ToUint8.
  rewrite (ToInt32_small 255) by lia.
  change 255 with (Z.ones 8). rewrite Z.land_ones by lia.
  change (2 ^ 8) with 256.
  now rewrite byte_of_Z_mod, <- byte_of_Z_mod, ToInt32_mod256, byte_of_Z_mod.
Qed.

Lemma ToUint8_and_shr (v s : Z) :
  s = 8 \/ s = 16 \/ s = 24 ->
  ToUint8 (js_and (js_shr (Num v) s) (Num 255)) = byte_of_Z (v / 2 ^ s).
Proof.
  intros Hs. unfold js_shr. rewrite ToUint8_and. unfold toInt32.
  rewrite <- byte_of_Z_mod, <- (byte_of_Z_mod (v / 2 ^ s)). f_equal.
  unfold ToInt32. change (2 ^ 31) with 2147483648.
  change (2 ^ 32) with 4294967296.
  destruct Hs as [-> | [-> | ->]].
  - change (8 mod 32) with 8. rewrite Z.shiftr_div_pow2 by lia.
    change (2 ^ 8) with 256. Z.div_mod_to_equations. lia.
  - change (16 mod 32) with 16. rewrite Z.shiftr_div_pow2 by lia.
    change (2 ^ 16) with 65536. Z.div_mod_to_equations. lia.
  - change (24 mod 32) with 24. rewrite Z.shiftr_div_pow2 by lia.
    change (2 ^ 24) with 16777216. Z.div_mod_to_equations. lia.
Qed.

Lemma Z_of_byte_of_Z_mod (z : Z) : Z_of_byte (byte_of_Z z) = z mod 256.
Proof.
  rewrite <- byte_of_Z_mod. apply Z_of_byte_of_Z.
  apply Z.mod_pos_bound. lia.
Qed.

Lemma js_shl_byte (x s : Z) :
  0 <= x < 256 -> s = 8 \/ s = 16 -> js_shl (Num x) s = Num (x * 2 ^ s).
Proof.
  intros Hx Hs. unfold js_shl, toInt32. rewrite (ToInt32_small x) by lia.
  f_equal.
  destruct Hs as [-> | ->].
  - change (8 mod 32) with 8. rewrite Z.shiftl_mul_pow2 by lia.
    change (2 ^ 8) with 256. apply ToInt32_small. lia.
  - change (16 mod 32) with 16. rewrite Z.shiftl_mul_pow2 by lia.
    change (2 ^ 16) with 65536. apply ToInt32_small. lia.
Qed.

(** *** What the stores write, and what they leave alone *)

(** The three entries of [structs], from [Hc : structs c = Some st]. *)
Ltac structs_cases Hc :=
  unfold structs in Hc;
  repeat match type of Hc with
         | (if ?t then _ else _) = _ => destruct t
         end;
  inversion Hc; subst; clear Hc.

Lemma write_length (b : buffer) (i : nat) (v : jsv) :
  length (write b i v) = length b.
Proof. apply length_insert. Qed.

Lemma read_write_eq (b : buffer) (i : nat) (v : jsv) :
  (i < length b)%nat -> read (write b i v) i = Num (Z_of_byte (ToUint8 v)).
Proof.
  intros Hi. unfold read, write. now rewrite list_lookup_insert_eq.
Qed.

Lemma read_write_ne (b : buffer) (i j : nat) (v : jsv) :
  i <> j -> read (write b i v) j = read b j.
Proof.
  intros Hij. unfold read, write. now rewrite list_lookup_insert_ne.
Qed.

Lemma put_length (c : ascii) (st : struct) (v : Z) (b : buffer) (o : nat) :
  structs c = Some st -> length (put st v b o) = length b.
Proof.
  intros Hc. structs_cases Hc; cbn [put];
    unfold storeInt, storeShort, storeByte; now rewrite ?write_length.
Qed.

(** A store touches only the bytes of its field. *)
Lemma put_frame (c : ascii) (st : struct) (v : Z) (b : buffer) (o i : nat) :
  structs c = Some st ->
  (i < o \/ o + len st <= i)%nat ->
  read (put st v b o) i = read b i.
Proof.
  intros Hc Hi. structs_cases Hc; cbn [put len] in *;
    unfold storeInt, storeShort, storeByte;
    rewrite ?read_write_ne by lia; reflexivity.
Qed.

(** A read looks only at the bytes of its field. *)
Lemma get_ext (c : ascii) (st : struct) (b b' : buffer) (o : nat) :
  structs c = Some st ->
  (forall i, (o <= i < o + len st)%nat -> read b i = read b' i) ->
  get st b o = get st b' o.
Proof.
  intros Hc Hi. structs_cases Hc; cbn [get len] in *;
    unfold extractInt, extractShort, extractByte;
    rewrite ?(Hi o), ?(Hi (o + 1)%nat), ?(Hi (o + 2)%nat), ?(Hi (o + 3)%nat) by lia;
    reflexivity.
Qed.

Lemma extractInt_storeInt (v : Z) (b : buffer) (st : nat) :
  0 <= v < 2 ^ 32 -> (st + 4 <= length b)%nat ->
  extractInt (storeInt v b st) st = Num v.
Proof.
  intros Hv Hst. unfold extractInt, storeInt.
  rewrite read_write_eq by (rewrite !write_length; lia).
  rewrite (read_write_ne _ (st + 3)%nat (st + 2)%nat) by lia.
  rewrite read_write_eq by (rewrite !write_length; lia).
  rewrite !(read_write_ne _ _ (st + 1)%nat) by lia.
  rewrite read_write_eq by (rewrite !write_length; lia).
  rewrite !(read_write_ne _ _ st) by lia.
  rewrite read_write_eq by lia.
  rewrite ToUint8_and, !ToUint8_and_shr by lia.
  rewrite !Z_of_byte_of_Z_mod.
  rewrite !js_shl_byte by (try apply Z.mod_pos_bound; lia).
  cbn [js_mul js_add]. f_equal.
  change (2 ^ 32) with 4294967296 in Hv.
  change (2 ^ 8) with 256. change (2 ^ 16) with 65536.
  change (2 ^ 24) with 16777216.
  Z.div_mod_to_equations. lia.
Qed.

Lemma extractShort_storeShort (v : Z) (b : buffer) (st : nat) :
  0 <= v < 2 ^ 16 -> (st + 2 <= length b)%nat ->
  extractShort (storeShort v b st) st = Num v.
Proof.
  intros Hv Hst. unfold extractShort, storeShort.
  rewrite read_write_eq by (rewrite !write_length; lia).
  rewrite !(read_write_ne _ _ st) by lia.
  rewrite read_write_eq by lia.
  rewrite ToUint8_and, !ToUint8_and_shr by lia.
  rewrite !Z_of_byte_of_Z_mod.
  rewrite !js_shl_byte by (try apply Z.mod_pos_bound; lia).
  cbn [js_add]. f_equal.
  change (2 ^ 16) with 65536 in Hv. change (2 ^ 8) with 256.
  Z.div_mod_to_equations. lia.
Qed.

Lemma extractByte_storeByte (v : Z) (b : buffer) (st : nat) :
  0 <= v < 2 ^ 8 -> (st + 1 <= length b)%nat ->
  extractByte (storeByte v b st) st = Num v.
Proof.
  intros Hv Hst. unfold extractByte, storeByte.
  rewrite read_write_eq by lia.
  rewrite ToUint8_and, Z_of_byte_of_Z_mod.
  f_equal. change (2 ^ 8) with 256 in Hv. now apply Z.mod_small.
Qed.

(** Every entry of [structs] reads back what it stored. *)
Lemma get_put (c : ascii) (st : struct) (v : Z) (b : buffer) (o : nat) :
  structs c = Some st ->
  0 <= v < 2 ^ (8 * Z.of_nat (len st)) ->
  (o + len st <= length b)%nat ->
  get st (put st v b o) o = Num v.
Proof.
  intros Hc Hv Ho. structs_cases Hc; cbn [get put len] in *.
  - now apply extractInt_storeInt.
  - now apply extractShort_storeShort.
  - now apply extractByte_storeByte.
Qed.

(** *** The codec at work *)

Example extractInt_high_bit :
  extractInt [xff; xff; xff; xff] 0 = Num 4294967295.
Proof. reflexivity. Qed.

Example storeInt_bytes :
  storeInt 4275878552 [x00; x00; x00; x00; x00] 1 = [x00; x98; xba; xdc; xfe].
Proof. reflexivity. Qed.

Example extractInt_past_end : extractInt [x01; x02; x03] 0 = NaN.
Proof. reflexivity. Qed.

Example extractShort_past_end : extractShort [x2a] 0 = Num 42.
Proof. reflexivity. Qed.

Example pack_unknown_code :
  pack [x00; x00; x00] 0 "bx" [1; 2] = mkOutcome [x00; x00; x00] [] (Throw TypeError).
Proof. reflexivity. Qed.

Example unpack_unknown_code :
  out_completion (unpack [x00; x00; x00] 0 "bx" ["a"; "b"]%string) = Throw TypeError.
Proof. reflexivity. Qed.

(** *** A whole record through [pack] and [unpack] *)

Lemma structlen_loop_ge (format : list ascii) (t n : nat) :
  structlen_loop format t = Return n -> (t <= n)%nat.
Proof.
  revert t. induction format as [|c format IH]; intros t; cbn [structlen_loop].
  - intros [= <-]. lia.
  - destruct (structs c) as [st|]; [|discriminate].
    intros H. apply IH in H. lia.
Qed.

(** [pack] leaves the bytes below its cursor alone. *)
Lemma pack_loop_frame (format : list ascii) (args : list Z) (buf : buffer)
    (offset ctr i : nat) :
  (i < offset + ctr)%nat ->
  read (out_buf (pack_loop buf offset format args ctr)) i = read buf i.
Proof.
  revert args buf ctr.
  induction format as [|c format IH]; intros args buf ctr Hi; [reflexivity|].
  destruct args as [|v args]; [reflexivity|]. cbn [pack_loop].
  destruct (structs c) as [st|] eqn:Hc; [|reflexivity].
  rewrite IH by lia. apply (put_frame c); [assumption | lia].
Qed.

Lemma pack_loop_completion (format : list ascii) (args : list Z) (buf : buffer)
    (offset ctr n : nat) :
  Forall2 fits format args ->
  structlen_loop format ctr = Return n ->
  out_completion (pack_loop buf offset format args ctr) = Return n.
Proof.
  intros Hfits. revert buf ctr.
  induction Hfits as [|c v format args _ _ IH]; intros buf ctr;
    cbn [pack_loop structlen_loop]; [trivial|].
  destruct (structs c) as [st|]; [apply IH | discriminate].
Qed.

Lemma unpack_pack_loop (format : list ascii) (args : list Z)
    (names : list string) (buf : buffer) (offset ctr n : nat)
    (result : gmap string jsv) :
  Forall2 fits format args ->
  length names = length args ->
  NoDup names ->
  structlen_loop format ctr = Return n ->
  (offset + n <= length buf)%nat ->
  exists result',
    unpack_loop (out_buf (pack_loop buf offset format args ctr)) offset format
      names ctr result
    = Return (result', n)
    /\ (forall x, x ∉ names -> result' !! x = result !! x)
    /\ (forall i name v, names !! i = Some name -> args !! i = Some v ->
          result' !! name = Some (Num v)).
Proof.
  intros Hfits. revert names buf ctr result.
  induction Hfits as [|c v format args (st & Hc & Hv) Hfits IH];
    intros names buf ctr result Hlen Hnd Hsl Hbuf.
  - destruct names; [|discriminate]. cbn in Hsl. injection Hsl as <-.
    exists result. split; [reflexivity|]. split; [reflexivity|].
    intros i name v Hi. discriminate Hi.
  - destruct names as [|name names]; [discriminate|].
    cbn [length] in Hlen. injection Hlen as Hlen.
    apply NoDup_cons in Hnd. destruct Hnd as [Hname Hnd].
    cbn [structlen_loop] in Hsl. rewrite Hc in Hsl.
    pose proof (structlen_loop_ge _ _ _ Hsl) as Hge.
    cbn [pack_loop unpack_loop]. rewrite Hc.
    assert (Hget : get st (out_buf (pack_loop (put st v buf (offset + ctr)%nat)
                                      offset format args (ctr + len st)%nat))
                     (offset + ctr)%nat = Num v).
    { rewrite (get_ext c st _ (put st v buf (offset + ctr)%nat)); [|assumption|].
      - apply (get_put c); [assumption | assumption | lia].
      - intros i Hi. apply pack_loop_frame. lia. }
    rewrite Hget.
    destruct (IH names (put st v buf (offset + ctr)%nat) (ctr + len st)%nat
                (<[ name := Num v ]> result) Hlen Hnd Hsl)
      as (result' & Hrun & Hout & Hin).
    { rewrite (put_length c) by assumption. exact Hbuf. }
    exists result'. split; [exact Hrun|]. split.
    + intros x Hx. apply not_elem_of_cons in Hx. destruct Hx as [Hx1 Hx2].
      rewrite Hout by assumption. now apply lookup_insert_ne.
    + intros [|i] name' v' Hi Ha; cbn in Hi, Ha.
      * injection Hi as <-. injection Ha as <-.
        rewrite Hout by assumption. apply lookup_insert_eq.
      * eapply Hin; eassumption.
Qed.

(** C5. Codec round trip. Let the values [args] be within the widths that
    [format] declares, and let the record fit in the buffer at [offset].
    Then [pack] returns the record length and writes bytes from which
    [unpack] reads every value back under its name (the names being
    distinct and none of them "unpack_length"), and sets [unpack_length] to
    the record length. In particular a 4-byte field reads back every [v] in
    [0, 2^32 - 1], also [v >= 2^31], as the same non-negative number:
    [extractInt] after [storeInt] gives [v]. *)
Theorem codec_roundtrip (buf : buffer) (offset : nat) (format : string)
    (args : list Z) (names : list string) (n : nat) :
  Forall2 fits (list_ascii_of_string format) args ->
  length names = length args ->
  NoDup names ->
  "unpack_length"%string ∉ names ->
  structlen format = Return n ->
  (offset + n <= length buf)%nat ->
  out_completion (pack buf offset format args) = Return n
  /\ (exists result,
        out_completion
          (unpack (out_buf (pack buf offset format args)) offset format names)
        = Return result
        /\ (forall i name v, names !! i = Some name -> args !! i = Some v ->
              result !! name = Some (Num v))
        /\ result !! "unpack_length"%string = Some (Num (Z.of_nat n)))
  /\ (forall v st, 0 <= v <= 2 ^ 32 - 1 -> (st + 4 <= length buf)%nat ->
        fits "I" v /\ extractInt (storeInt v buf st) st = Num v).
Proof.
  intros Hfits Hlen Hnd Hul Hsl Hbuf.
  assert (Hflen : String.length format = length args).
  { rewrite <- (Forall2_length _ _ _ Hfits).
    clear. induction format as [|a format IH]; cbn; congruence. }
  assert (Hpack : pack buf offset format args
                  = pack_loop buf offset (list_ascii_of_string format) args 0%nat).
  { unfold pack. rewrite Hflen, Nat.eqb_refl. cbn [negb]. now rewrite Hsl. }
  split; [|split].
  - rewrite Hpack. now apply pack_loop_completion.
  - destruct (unpack_pack_loop (list_ascii_of_string format) args names buf
                offset 0%nat n ∅ Hfits Hlen Hnd Hsl Hbuf)
      as (result' & Hrun & Hout & Hin).
    unfold unpack. rewrite Hflen, <- Hlen, Nat.eqb_refl. cbn [negb].
    rewrite Hpack, Hrun. cbn [out_completion].
    eexists. split; [reflexivity|]. split.
    + intros i name v Hi Ha. rewrite lookup_insert_ne.
      * eapply Hin; eassumption.
      * intros <-. apply Hul. eapply list_elem_of_lookup_2. exact Hi.
    + apply lookup_insert_eq.
  - intros v st Hv Hst. split.
    + exists (mkStruct 4 storeInt extractInt). split; [reflexivity|].
      cbn [len]. change (8 * Z.of_nat 4) with 32. lia.
    + apply extractInt_storeInt; [lia | assumption].
Qed.

(** A record of a 2-byte, a 4-byte and a 1-byte field, the 4-byte field
    holding the largest value, 2^32 - 1. *)
Lemma codec_roundtrip_witness :
  out_completion
    (pack [x00; x00; x00; x00; x00; x00; x00; x00] 1 "sIb" [513; 4294967295; 7])
  = Return 7%nat
  /\ (exists result,
        out_completion
          (unpack
             (out_buf (pack [x00; x00; x00; x00; x00; x00; x00; x00] 1 "sIb"
                         [513; 4294967295; 7]))
             1 "sIb" ["model"; "serial"; "flags"]%string)
        = Return result
        /\ result !! "serial"%string = Some (Num 4294967295))
  /\ extractInt (storeInt 2147483648 [x00; x00; x00; x00; x00; x00; x00; x00] 2) 2
     = Num 2147483648.
Proof.
  destruct (codec_roundtrip [x00; x00; x00; x00; x00; x00; x00; x00] 1 "sIb"
              [513; 4294967295; 7] ["model"; "serial"; "flags"]%string 7)
    as (Hpack & (result & Hunpack & Hval & _) & HI).
  - repeat constructor; eexists; (split; [reflexivity | cbn; lia]).
  - reflexivity.
  - compute_done.
  - compute_done.
  - reflexivity.
  - cbn. lia.
  - split; [exact Hpack|]. split.
    + exists result. split; [exact Hunpack|].
      apply (Hval 1%nat); reflexivity.
    + apply HI; [lia | cbn; lia].
Defined.

(** *** Arity mismatches *)

(** C6, as the code has it. When the format and the name list (for
    [unpack]) or the value list (for [pack]) differ in length, no error is
    raised: [unpack] writes "Bad args to unpack!" to the console and returns
    the empty object, [pack] writes "Bad args to pack!" and returns 0, and
    neither touches the buffer. *)
Theorem arity_mismatch_logs_and_returns (buf : buffer) (offset : nat)
    (format : string) (names : list string) (args : list Z) :
  String.length format <> length names ->
  String.length format <> length args ->
  unpack buf offset format names
  = mkOutcome buf ["Bad args to unpack!"%string] (Return ∅)
  /\ pack buf offset format args
     = mkOutcome buf ["Bad args to pack!"%string] (Return 0%nat).
Proof.
  intros Hn Ha. unfold unpack, pack.
  apply Nat.eqb_neq in Hn, Ha. now rewrite Hn, Ha.
Qed.

Lemma arity_mismatch_logs_and_returns_witness :
  unpack [x01; x02] 0 "bb" ["only"%string]
  = mkOutcome [x01; x02] ["Bad args to unpack!"%string] (Return ∅)
  /\ pack [x01; x02] 0 "bb" [7]
     = mkOutcome [x01; x02] ["Bad args to pack!"%string] (Return 0%nat).
Proof.
  apply (arity_mismatch_logs_and_returns [x01; x02] 0 "bb" ["only"%string] [7]);
    cbn; lia.
Defined.

(** C6 as stated fails: a call with mismatched arity completes normally. *)
Lemma arity_mismatch_does_not_throw :
  String.length "bb" <> length ["only"%string]
  /\ String.length "bb" <> length [7]
  /\ out_completion (unpack [x01; x02] 0 "bb" ["only"%string]) = Return ∅
  /\ out_completion (pack [x01; x02] 0 "bb" [7]) = Return 0%nat
  /\ ~ (exists e, out_completion (unpack [x01; x02] 0 "bb" ["only"%string]) = Throw e)
  /\ ~ (exists e, out_completion (pack [x01; x02] 0 "bb" [7]) = Throw e).
Proof.
  repeat split; try (cbn; lia); try reflexivity;
    intros [e He]; discriminate He.
Qed.

(** *** [extractString] *)

Lemma length_append (s1 s2 : string) :
  String.length (s1 ++ s2) = (String.length s1 + String.length s2)%nat.
Proof. induction s1 as [|a s1 IH]; simpl; [reflexivity | now f_equal]. Qed.

(** The loop adds one character per iteration. *)
Lemma extractString_loop_length (bytes : buffer) (n i : nat) (s : string) :
  String.length (extractString_loop bytes i n s) = (String.length s + n)%nat.
Proof.
  revert i s. induction n as [|n IH]; intros i s; cbn [extractString_loop].
  - lia.
  - rewrite IH, length_append. cbn. lia.
Qed.

(** The third argument bounds the index, not the count: with a supplied
    [len > 0] the result has [len - start] characters. *)
Lemma extractString_length (bytes : buffer) (start len : nat) :
  (0 < len)%nat ->
  String.length (extractString bytes start (Some len)) = (len - start)%nat.
Proof.
  intros Hl. unfold extractString. destruct len as [|l]; [lia|].
  now rewrite extractString_loop_length.
Qed.

(** C7 at [bytes = "ABCD"], [start = 1], [len = 2]: the source returns the
    one character "B", where two characters, "BC", are specified. *)
Theorem extractString_len_is_end_index :
  extractString [x41; x42; x43; x44] 1 (Some 2%nat) = "B"%string
  /\ String.length (extractString [x41; x42; x43; x44] 1 (Some 2%nat)) <> 2%nat
  /\ extractString [x41; x42; x43; x44] 2 (Some 2%nat) = EmptyString
  /\ extractString [x41; x42; x43; x44] 1 None = "BCD"%string.
Proof.
  split; [reflexivity|]. split; [|split; reflexivity].
  vm_compute. discriminate.
Qed.
End UtilFacts.

(** * Properties of the simulator *)

Module SimulatorFacts.
Import Event Simulator.

(** ** Order of timestamps *)

Lemma ltb_false_leb (a b : string) :
  String.ltb a b = false <-> String.leb b a = true.
Proof.
  unfold String.ltb, String.leb. rewrite (String.compare_antisym b a).
  destruct (String.compare a b); cbn; intuition congruence.
Qed.

Lemma ltb_true_leb (a b : string) :
  String.ltb a b = true <-> String.leb b a = false.
Proof.
  unfold String.ltb, String.leb. rewrite (String.compare_antisym b a).
  destruct (String.compare a b); cbn; intuition congruence.
Qed.

Lemma leb_refl (a : string) : String.leb a a = true.
Proof. destruct (String.leb_total a a); assumption. Qed.

Lemma leb_trans (a b c : string) :
  String.leb a b = true -> String.leb b c = true -> String.leb a c = true.
Proof.
  unfold String.leb. intros Hab Hbc.
  destruct (String.compare a c) eqn:Hac; try reflexivity.
  exfalso.
  assert (Hca : String_as_OT.lt c a).
  { apply String_as_OT.cmp_lt. unfold String_as_OT.cmp.
    rewrite String.compare_antisym, Hac. reflexivity. }
  destruct (String.compare a b) eqn:Hab'; try discriminate.
  - apply String.compare_eq_iff in Hab'. subst b.
    rewrite Hac in Hbc. discriminate.
  - destruct (String.compare b c) eqn:Hbc'; try discriminate.
    + apply String.compare_eq_iff in Hbc'. subst c. congruence.
    + apply String_as_OT.cmp_lt in Hab', Hbc'.
      pose proof (String_as_OT.lt_trans _ _ _ Hab' Hbc') as Hlt.
      pose proof (String_as_OT.lt_trans _ _ _ Hlt Hca) as Haa.
      exact (String_as_OT.lt_not_eq _ _ Haa eq_refl).
Qed.

(** ** [_.sortBy] is the stable sort *)

Section SortByFacts.
Context {A : Type} (key : A -> string).

Lemma compareAscending_leb (a b : entry A) :
  (index a < index b)%nat ->
  (compareAscending a b <=? 0) = String.leb (criteria a) (criteria b).
Proof.
  intros Hidx. unfold compareAscending.
  destruct (String.eqb (criteria a) (criteria b)) eqn:Heq; cbn [negb].
  - apply String.eqb_eq in Heq. rewrite Heq, leb_refl.
    apply Z.leb_le. lia.
  - destruct (String.ltb (criteria b) (criteria a)) eqn:Hba.
    + apply ltb_true_leb in Hba. now rewrite Hba.
    + apply ltb_false_leb in Hba. rewrite Hba.
      destruct (String.ltb (criteria a) (criteria b)); [reflexivity|].
      apply Z.leb_le. lia.
Qed.

Lemma Forall_sort_insert (P : entry A -> Prop) compare (x : entry A) l :
  P x -> Forall P l -> Forall P (sort_insert compare x l).
Proof.
  intros Hx Hl. induction Hl as [|y l Hy Hl IH]; cbn [sort_insert].
  - now constructor.
  - destruct (compare x y <=? 0); repeat constructor; assumption.
Qed.

Lemma Forall_Array_sort (P : entry A -> Prop) compare l :
  Forall P l -> Forall P (Array_sort compare l).
Proof.
  unfold Array_sort. induction 1 as [|x l Hx Hl IH]; cbn [foldr].
  - constructor.
  - now apply Forall_sort_insert.
Qed.

Lemma Forall_wrap (i : nat) (l : list A) :
  Forall (fun e => wrapped key e /\ (i <= index e)%nat) (wrap key i l).
Proof.
  revert i. induction l as [|x l IH]; intros i; cbn [wrap].
  - constructor.
  - constructor; [split; [reflexivity | cbn; lia]|].
    eapply Forall_impl; [apply (IH (S i))|].
    cbn. intros e [He Hi]. split; [assumption | lia].
Qed.

Lemma sort_insert_stable_insert (x : entry A) (l : list (entry A)) :
  wrapped key x ->
  Forall (fun e => wrapped key e /\ (index x < index e)%nat) l ->
  map value (sort_insert compareAscending x l)
  = stable_insert key (value x) (map value l).
Proof.
  intros Hx Hl. induction Hl as [|y l [Hy Hxy] Hl IH];
    cbn [sort_insert stable_insert map]; [reflexivity|].
  rewrite compareAscending_leb by assumption.
  rewrite Hx, Hy.
  destruct (String.leb (key (value x)) (key (value y))); cbn [map].
  - reflexivity.
  - now rewrite IH.
Qed.

Lemma Array_sort_wrap (i : nat) (l : list A) :
  map value (Array_sort compareAscending (wrap key i l)) = stable_sort key l.
Proof.
  revert i. induction l as [|x l IH]; intros i; [reflexivity|].
  cbn [wrap]. unfold Array_sort, stable_sort. cbn [foldr].
  rewrite sort_insert_stable_insert.
  - cbn [value]. f_equal. apply IH.
  - reflexivity.
  - apply Forall_Array_sort. cbn [index].
    eapply Forall_impl; [apply (Forall_wrap (S i))|].
    cbn. intros e [He Hi]. split; [assumption | lia].
Qed.

(** Wrapping, sorting with the index as tie-break and unwrapping is the
    stable insertion sort. *)
Lemma sortBy_stable_sort (l : list A) : sortBy l key = stable_sort key l.
Proof. apply Array_sort_wrap. Qed.

Lemma stable_insert_Permutation (x : A) (l : list A) :
  Permutation (stable_insert key x l) (x :: l).
Proof.
  induction l as [|y l IH]; cbn [stable_insert]; [reflexivity|].
  destruct (String.leb (key x) (key y)); [reflexivity|].
  rewrite IH. apply perm_swap.
Qed.

Lemma stable_sort_Permutation (l : list A) : Permutation (stable_sort key l) l.
Proof.
  unfold stable_sort. induction l as [|x l IH]; cbn [foldr]; [reflexivity|].
  rewrite stable_insert_Permutation. now constructor.
Qed.

Lemma stable_insert_sorted (x : A) (l : list A) :
  StronglySorted (key_le key) l ->
  StronglySorted (key_le key) (stable_insert key x l).
Proof.
  induction 1 as [|y l Hs IH Hy]; cbn [stable_insert].
  - repeat constructor.
  - destruct (String.leb (key x) (key y)) eqn:Hxy.
    + constructor; [now constructor|].
      constructor; [exact Hxy|].
      eapply Forall_impl; [exact Hy|].
      intros z Hz. unfold key_le in *. now apply leb_trans with (key y).
    + constructor; [exact IH|].
      rewrite stable_insert_Permutation. constructor; [|exact Hy].
      unfold key_le. destruct (String.leb_total (key x) (key y)); congruence.
Qed.

Lemma stable_sort_sorted (l : list A) :
  StronglySorted (key_le key) (stable_sort key l).
Proof.
  unfold stable_sort. induction l as [|x l IH]; cbn [foldr].
  - constructor.
  - now apply stable_insert_sorted.
Qed.

(** Stability: among the elements with one key, the order is kept. *)
Lemma stable_insert_filter (t : string) (x : A) (l : list A) :
  List.filter (fun a => String.eqb (key a) t) (stable_insert key x l)
  = List.filter (fun a => String.eqb (key a) t) (x :: l).
Proof.
  induction l as [|y l IH]; cbn [stable_insert]; [reflexivity|].
  destruct (String.leb (key x) (key y)) eqn:Hxy; [reflexivity|].
  cbn [List.filter] in *. rewrite IH.
  destruct (String.eqb (key x) t) eqn:Hx; [|reflexivity].
  destruct (String.eqb (key y) t) eqn:Hy; [|reflexivity].
  apply String.eqb_eq in Hx, Hy. rewrite Hx, Hy, leb_refl in Hxy.
  discriminate.
Qed.

Lemma stable_sort_filter (t : string) (l : list A) :
  List.filter (fun a => String.eqb (key a) t) (stable_sort key l)
  = List.filter (fun a => String.eqb (key a) t) l.
Proof.
  unfold stable_sort. induction l as [|x l IH]; cbn [foldr]; [reflexivity|].
  rewrite stable_insert_filter. cbn [List.filter]. now rewrite IH.
Qed.
End SortByFacts.

(** ** The handlers, step by step *)

Section Steps.
Variable Date_parse : string -> Z.

Lemma ensureTimestamp_ok (e : event) (s : sim) :
  js_gt (currTimestamp s) (time e) = false ->
  ensureTimestamp e s
  = (Return e, mkSim (events s) (currBasal s) (Some (time e))).
Proof.
  intros Hgt. unfold ensureTimestamp, bind, gets. now rewrite Hgt.
Qed.

Lemma ensureTimestamp_throw (e : event) (s : sim) :
  js_gt (currTimestamp s) (time e) = true ->
  ensureTimestamp e s = (Throw (OrderingViolation (currTimestamp s) e), s).
Proof.
  intros Hgt. unfold ensureTimestamp, bind, gets. now rewrite Hgt.
Qed.

Lemma simpleSimulate_ok (e : event) (s : sim) :
  js_gt (currTimestamp s) (time e) = false ->
  simpleSimulate e s
  = (Return tt, mkSim (events s ++ [e]) (currBasal s) (Some (time e))).
Proof.
  intros Hgt. unfold simpleSimulate, bind. now rewrite ensureTimestamp_ok.
Qed.

Lemma simpleSimulate_throw (e : event) (s : sim) :
  js_gt (currTimestamp s) (time e) = true ->
  simpleSimulate e s = (Throw (OrderingViolation (currTimestamp s) e), s).
Proof.
  intros Hgt. unfold simpleSimulate, bind. now rewrite ensureTimestamp_throw.
Qed.

Lemma basal_ok (e : event) (s : sim) :
  js_gt (currTimestamp s) (time e) = false ->
  basal Date_parse e s
  = (Return tt,
     match currBasal s with
     | Some open =>
         mkSim (events s ++ [closed Date_parse open e])
           (Some (set_previous (omit_previous (closed Date_parse open e)) e))
           (Some (time e))
     | None => mkSim (events s) (Some e) (Some (time e))
     end).
Proof.
  intros Hgt. unfold basal, bind. rewrite ensureTimestamp_ok by assumption.
  cbn. destruct (currBasal s) as [open|]; [|reflexivity].
  unfold closed, isAssigned_duration, done.
  destruct open as [ty ti [d|] sn pr no en bo pa]; reflexivity.
Qed.

Lemma basal_throw (e : event) (s : sim) :
  js_gt (currTimestamp s) (time e) = true ->
  basal Date_parse e s = (Throw (OrderingViolation (currTimestamp s) e), s).
Proof.
  intros Hgt. unfold basal, bind. now rewrite ensureTimestamp_throw.
Qed.

Lemma call_throw (m : method) (e : event) (s : sim) :
  js_gt (currTimestamp s) (time e) = true ->
  call Date_parse m e s = (Throw (OrderingViolation (currTimestamp s) e), s).
Proof.
  intros Hgt. destruct m; cbn [call];
    first [now apply basal_throw | now apply simpleSimulate_throw].
Qed.

Lemma call_simple_ok (m : method) (e : event) (s : sim) :
  m <> Basal ->
  js_gt (currTimestamp s) (time e) = false ->
  call Date_parse m e s
  = (Return tt, mkSim (events s ++ [e]) (currBasal s) (Some (time e))).
Proof.
  intros Hm Hgt. destruct m; cbn [call]; try congruence;
    now apply simpleSimulate_ok.
Qed.

Lemma js_gt_false (s : sim) (e : event) :
  js_gt (currTimestamp s) (time e) = false <-> in_order s e.
Proof.
  unfold js_gt, in_order. destruct (currTimestamp s) as [t|].
  - apply ltb_false_leb.
  - tauto.
Qed.

(** C1. The basal handler, on an event [B] that is in order, completes
    normally and records [B.time] as the last timestamp. When a segment
    [open] is open, exactly one record is appended to the log: [open] with
    its [duration] set to [Date.parse(B.time) - Date.parse(open.time)] if
    and only if it had none (a set duration is kept), its [scheduleName] set
    to "Unknown", and every other field as it was. [B] gets as [previous]
    that record without its own [previous], and becomes the open segment.
    When no segment is open, the log stays as it is and [B], unchanged,
    becomes the open segment. *)
Theorem basal_closes_open_segment (B : event) (s : sim) :
  in_order s B ->
  exists s',
    basal Date_parse B s = (Return tt, s')
    /\ currTimestamp s' = Some (time B)
    /\ match currBasal s with
       | None => events s' = events s /\ currBasal s' = Some B
       | Some open =>
           exists seg snapshot,
             events s' = events s ++ [seg]
             /\ duration seg
                = match duration open with
                  | None => Some (Date_parse (time B) - Date_parse (time open))
                  | Some d => Some d
                  end
             /\ scheduleName seg = Some "Unknown"%string
             /\ seg = mkEvent (type open) (time open) (duration seg)
                        (scheduleName seg) (previous open) (normal open)
                        (expectedNormal open) (Event.bolus open) (payload open)
             /\ snapshot = mkEvent (type seg) (time seg) (duration seg)
                             (scheduleName seg) None (normal seg)
                             (expectedNormal seg) (Event.bolus seg) (payload seg)
             /\ currBasal s'
                = Some (mkEvent (type B) (time B) (duration B) (scheduleName B)
                          (Some snapshot) (normal B) (expectedNormal B)
                          (Event.bolus B) (payload B))
       end.
Proof.
  intros Hord. apply js_gt_false in Hord.
  eexists. split; [apply basal_ok; assumption|].
  destruct (currBasal s) as [open|]; cbn [currTimestamp events currBasal].
  - split; [reflexivity|].
    exists (closed Date_parse open B), (omit_previous (closed Date_parse open B)).
    repeat split; reflexivity.
  - repeat split; reflexivity.
Qed.

(** C2. For each of the ten handlers: an event whose [time] is below the
    last accepted timestamp makes the call throw the ordering error and
    leaves the state (log, open segment, last timestamp) as it was; an
    event in order makes the call return, with the event's [time] as the
    last timestamp, and every handler but [basal] appends the event itself
    to the log. *)
Theorem out_of_order_event_rejected (m : method) (e : event) (s : sim) :
  (forall t, currTimestamp s = Some t -> String.ltb (time e) t = true ->
     call Date_parse m e s = (Throw (OrderingViolation (Some t) e), s))
  /\ (in_order s e ->
      exists s', call Date_parse m e s = (Return tt, s')
                 /\ currTimestamp s' = Some (time e)
                 /\ (m <> Basal -> events s' = events s ++ [e]
                                   /\ currBasal s' = currBasal s)).
Proof.
  split.
  - intros t Ht Hlt. rewrite <- Ht. apply call_throw.
    rewrite Ht. exact Hlt.
  - intros Hord. apply js_gt_false in Hord.
    destruct (method_eq_dec m Basal) as [-> | Hm].
    + cbn [call]. rewrite basal_ok by assumption.
      eexists. split; [reflexivity|].
      split; [now destruct (currBasal s) | congruence].
    + rewrite call_simple_ok by assumption.
      eexists. split; [reflexivity|]. now repeat split.
Qed.

(** C9, as the code has it. The segment that the basal handler closes is
    logged with [scheduleName] "Unknown" whatever name it carried before:
    a name set on the open segment is overwritten, not preserved. *)
Theorem closed_segment_scheduleName_Unknown (B open : event) (s : sim) :
  currBasal s = Some open ->
  in_order s B ->
  exists s' seg,
    basal Date_parse B s = (Return tt, s')
    /\ events s' = events s ++ [seg]
    /\ time seg = time open
    /\ payload seg = payload open
    /\ scheduleName seg = Some "Unknown"%string.
Proof.
  intros Hopen Hord. apply js_gt_false in Hord.
  exists (mkSim (events s ++ [closed Date_parse open B])
            (Some (set_previous (omit_previous (closed Date_parse open B)) B))
            (Some (time B))), (closed Date_parse open B).
  rewrite basal_ok by assumption. rewrite Hopen. now repeat split.
Qed.

(** ** Feeding a sequence of events *)

Lemma feed_cons (m : method) (e : event) (calls : list (method * event))
    (s : sim) :
  feed Date_parse ((m, e) :: calls) s
  = if js_gt (currTimestamp s) (time e) then
      (Throw (OrderingViolation (currTimestamp s) e), s)
    else
      feed Date_parse calls (snd (call Date_parse m e s)).
Proof.
  cbn [feed]. unfold bind.
  destruct (js_gt (currTimestamp s) (time e)) eqn:Hgt.
  - now rewrite call_throw.
  - destruct (method_eq_dec m Basal) as [-> | Hm].
    + cbn [call]. now rewrite basal_ok.
    + now rewrite call_simple_ok.
Qed.

Lemma feed_app (l1 l2 : list (method * event)) (s : sim) :
  feed Date_parse (l1 ++ l2) s
  = match feed Date_parse l1 s with
    | (Return _, s1) => feed Date_parse l2 s1
    | (Throw e, s1) => (Throw e, s1)
    end.
Proof.
  revert s. induction l1 as [|[m e] l1 IH]; intros s; [reflexivity|].
  rewrite <- app_comm_cons, !feed_cons.
  destruct (js_gt (currTimestamp s) (time e)); [reflexivity | apply IH].
Qed.

(** Events fed to the handlers other than [basal] go to the log as they
    are and leave the open segment alone. *)
Lemma feed_no_basal (calls : list (method * event)) (s s' : sim) :
  Forall (fun c => fst c <> Basal) calls ->
  feed Date_parse calls s = (Return tt, s') ->
  events s' = events s ++ map snd calls /\ currBasal s' = currBasal s.
Proof.
  intros Hnb. revert s. induction Hnb as [|[m e] calls Hm Hnb IH]; intros s.
  - cbn. intros [= <-]. now rewrite app_nil_r.
  - rewrite feed_cons.
    destruct (js_gt (currTimestamp s) (time e)) eqn:Hgt; [discriminate|].
    rewrite call_simple_ok by assumption. cbn [snd]. intros Hfeed.
    apply IH in Hfeed. cbn [events currBasal] in Hfeed.
    destruct Hfeed as [-> ->]. cbn [map snd]. now rewrite <- app_assoc.
Qed.

Lemma core_closed (open next : event) :
  core (closed Date_parse open next) = core open.
Proof. reflexivity. Qed.

Lemma core_set_previous (p e : event) : core (set_previous p e) = core e.
Proof. reflexivity. Qed.

(** Where the records of the log and the open segment come from: from the
    log and the open segment at the start, or from an event that was fed. *)
Lemma feed_origin (calls : list (method * event)) (s s' : sim) :
  feed Date_parse calls s = (Return tt, s') ->
  (forall x, In x (events s') ->
     In x (events s)
     \/ (exists o, currBasal s = Some o /\ core x = core o)
     \/ (exists c, In c calls /\ core x = core (snd c)))
  /\ (forall o', currBasal s' = Some o' ->
       (exists o, currBasal s = Some o /\ core o' = core o)
       \/ (exists c, In c calls /\ core o' = core (snd c))).
Proof.
  revert s. induction calls as [|[m e] calls IH]; intros s.
  - cbn. intros [= <-]. split; [now left|]. intros o' Ho'. left. now exists o'.
  - rewrite feed_cons.
    destruct (js_gt (currTimestamp s) (time e)) eqn:Hgt; [discriminate|].
    intros Hfeed. apply IH in Hfeed. destruct Hfeed as [Hlog Hopen].
    assert (Hstep :
      (forall x, In x (events (snd (call Date_parse m e s))) ->
         In x (events s)
         \/ (exists o, currBasal s = Some o /\ core x = core o)
         \/ core x = core e)
      /\ (forall o, currBasal (snd (call Date_parse m e s)) = Some o ->
           currBasal s = Some o \/ core o = core e)).
    { destruct (method_eq_dec m Basal) as [-> | Hm].
      - cbn [call]. rewrite basal_ok by assumption. cbn [snd].
        destruct (currBasal s) as [open|]; cbn [events currBasal].
        + split.
          * intros x Hx. apply in_app_or in Hx. destruct Hx as [Hx | [<- | []]].
            -- now left.
            -- right. left. exists open. split; [reflexivity | apply core_closed].
          * intros o [= <-]. right. apply core_set_previous.
        + split; [now left|]. intros o [= <-]. now right.
      - rewrite call_simple_ok by assumption. cbn [snd events currBasal]. split.
        + intros x Hx. apply in_app_or in Hx. destruct Hx as [Hx | [<- | []]].
          * now left.
          * right. now right.
        + intros o Ho. now left. }
    destruct Hstep as [Hslog Hsopen]. split.
    + intros x Hx. destruct (Hlog x Hx) as [Hx' | [(o & Ho & Hxo) | (c & Hc & Hxc)]].
      * destruct (Hslog x Hx') as [? | [? | Hxe]]; [now left | now (right; left) |].
        right. right. exists (m, e). split; [now left | exact Hxe].
      * destruct (Hsopen o Ho) as [Ho' | Hoe].
        -- right. left. now exists o.
        -- right. right. exists (m, e). split; [now left | cbn; congruence].
      * right. right. exists c. split; [now right | exact Hxc].
    + intros o' Ho'. destruct (Hopen o' Ho') as [(o & Ho & Hoo) | (c & Hc & Hoc)].
      * destruct (Hsopen o Ho) as [Ho2 | Hoe].
        -- left. now exists o.
        -- right. exists (m, e). split; [now left | cbn; congruence].
      * right. exists c. split; [now right | exact Hoc].
Qed.

End Steps.

(** *** Worked examples of the handlers *)

(** A segment opened at 12:00 and closed by a basal event at 12:30 is logged
    with a duration of 1 800 000 ms. *)
Lemma basal_closes_open_segment_witness :
  in_order (mkSim [] (Some (basal_at "2014-11-05T12:00:00" None None))
              (Some "2014-11-05T12:00:00"%string))
    (basal_at "2014-11-05T12:30:00" None None)
  /\ exists s',
      basal sample_Date_parse (basal_at "2014-11-05T12:30:00" None None)
        (mkSim [] (Some (basal_at "2014-11-05T12:00:00" None None))
           (Some "2014-11-05T12:00:00"%string))
      = (Return tt, s')
      /\ events s'
         = [basal_at "2014-11-05T12:00:00" (Some 1800000) (Some "Unknown"%string)].
Proof.
  assert (Hord : in_order
            (mkSim [] (Some (basal_at "2014-11-05T12:00:00" None None))
               (Some "2014-11-05T12:00:00"%string))
            (basal_at "2014-11-05T12:30:00" None None)) by reflexivity.
  split; [exact Hord|].
  destruct (basal_closes_open_segment sample_Date_parse _ _ Hord)
    as (s' & Hrun & _ & seg & snapshot & Hlog & Hd & Hn & Hseg & _).
  exists s'. split; [exact Hrun|].
  rewrite Hlog, Hseg, Hd, Hn. reflexivity.
Defined.

(** After an event at 12:30, a reading stamped 12:00 is refused by [smbg]
    and one stamped 13:00 is accepted. *)
Lemma out_of_order_event_rejected_witness :
  call sample_Date_parse Smbg (smbg_at "2014-11-05T12:00:00")
    (mkSim [] None (Some "2014-11-05T12:30:00"%string))
  = (Throw (OrderingViolation (Some "2014-11-05T12:30:00"%string)
              (smbg_at "2014-11-05T12:00:00")),
     mkSim [] None (Some "2014-11-05T12:30:00"%string))
  /\ exists s',
      call sample_Date_parse Smbg (smbg_at "2014-11-05T13:00:00")
        (mkSim [] None (Some "2014-11-05T12:30:00"%string))
      = (Return tt, s')
      /\ currTimestamp s' = Some "2014-11-05T13:00:00"%string.
Proof.
  split.
  - apply (proj1 (out_of_order_event_rejected sample_Date_parse Smbg
                    (smbg_at "2014-11-05T12:00:00")
                    (mkSim [] None (Some "2014-11-05T12:30:00"%string))));
      reflexivity.
  - destruct (proj2 (out_of_order_event_rejected sample_Date_parse Smbg
                       (smbg_at "2014-11-05T13:00:00")
                       (mkSim [] None (Some "2014-11-05T12:30:00"%string))))
      as (s' & Hrun & Hts & _); [reflexivity|].
    exists s'. split; [exact Hrun | exact Hts].
Defined.

Lemma closed_segment_scheduleName_Unknown_witness :
  exists s' seg,
    basal sample_Date_parse (basal_at "2014-11-05T12:30:00" None None)
      (mkSim []
         (Some (basal_at "2014-11-05T12:00:00" None (Some "Weekday"%string)))
         (Some "2014-11-05T12:00:00"%string))
    = (Return tt, s')
    /\ events s' = [seg]
    /\ scheduleName seg = Some "Unknown"%string.
Proof.
  destruct (closed_segment_scheduleName_Unknown sample_Date_parse
              (basal_at "2014-11-05T12:30:00" None None)
              (basal_at "2014-11-05T12:00:00" None (Some "Weekday"%string))
              (mkSim []
                 (Some (basal_at "2014-11-05T12:00:00" None (Some "Weekday"%string)))
                 (Some "2014-11-05T12:00:00"%string)))
    as (s' & seg & Hrun & Hlog & _ & _ & Hn); [reflexivity | reflexivity |].
  exists s', seg. split; [exact Hrun|]. split; [exact Hlog | exact Hn].
Defined.

(** C9 as stated fails: a segment fed with the schedule name "Weekday" and
    closed by the next basal event is logged with the name "Unknown". *)
Lemma explicit_scheduleName_is_overwritten :
  scheduleName (basal_at "2014-11-05T12:00:00" None (Some "Weekday"%string))
  = Some "Weekday"%string
  /\ feed sample_Date_parse
       [(Basal, basal_at "2014-11-05T12:00:00" None (Some "Weekday"%string));
        (Basal, basal_at "2014-11-05T12:30:00" None None)] make
     = (Return tt,
        mkSim
          [basal_at "2014-11-05T12:00:00" (Some 1800000) (Some "Unknown"%string)]
          (Some (set_previous
                   (basal_at "2014-11-05T12:00:00" (Some 1800000)
                      (Some "Unknown"%string))
                   (basal_at "2014-11-05T12:30:00" None None)))
          (Some "2014-11-05T12:30:00"%string))
  /\ ~ (forall seg,
         In seg (events (snd (feed sample_Date_parse
            [(Basal, basal_at "2014-11-05T12:00:00" None (Some "Weekday"%string));
             (Basal, basal_at "2014-11-05T12:30:00" None None)] make))) ->
         scheduleName seg = Some "Weekday"%string).
Proof.
  split; [reflexivity|]. split; [reflexivity|].
  intros H.
  specialize (H (basal_at "2014-11-05T12:00:00" (Some 1800000)
                   (Some "Unknown"%string)) (or_introl eq_refl)).
  discriminate H.
Qed.
(** ** Retrieval *)

Lemma getEvents_stable_sort (s : sim) :
  getEvents s = stable_sort time (List.filter getEvents_filter (events s)).
Proof. apply sortBy_stable_sort. Qed.

Lemma getEvents_Permutation (s : sim) :
  Permutation (getEvents s) (List.filter getEvents_filter (events s)).
Proof. rewrite getEvents_stable_sort. apply stable_sort_Permutation. Qed.

Lemma In_getEvents (s : sim) (e : event) :
  In e (getEvents s) <-> In e (events s) /\ getEvents_filter e = true.
Proof.
  rewrite <- filter_In. split; apply Permutation_in;
    [|symmetry]; apply getEvents_Permutation.
Qed.

Lemma degenerate_test (b : event) :
  strict_eq_0 (prop (normal b)) && negb (truthy (prop (expectedNormal b))) = true
  <-> degenerate b.
Proof.
  unfold degenerate, prop. rewrite andb_true_iff, negb_true_iff. split.
  - intros [Hn He]. split.
    + destruct (normal b) as [[| | |q| |]|]; try discriminate.
      exists q. split; [reflexivity|]. now apply Qeq_bool_iff.
    + destruct (expectedNormal b) as [v|]; [right; now exists v | now left].
  - intros [(q & Hn & Hq) He]. split.
    + rewrite Hn. cbn. now apply Qeq_bool_iff.
    + destruct He as [-> | (v & -> & Hv)]; [reflexivity | exact Hv].
Qed.

Lemma getEvents_filter_false (e : event) :
  getEvents_filter e = false <-> dropped e.
Proof.
  unfold getEvents_filter, dropped.
  destruct (String.eqb (type e) "bolus") eqn:Hb.
  - apply String.eqb_eq in Hb.
    destruct (strict_eq_0 _ && _) eqn:Ht.
    + apply degenerate_test in Ht. intuition.
    + split; [discriminate|]. intros [[_ Hd] | [Hw _]].
      * apply degenerate_test in Hd. congruence.
      * rewrite Hb in Hw. discriminate.
  - apply String.eqb_neq in Hb.
    destruct (String.eqb (type e) "wizard") eqn:Hw.
    + apply String.eqb_eq in Hw.
      destruct (Event.bolus e) as [b|].
      * destruct (strict_eq_0 _ && _) eqn:Ht.
        -- apply degenerate_test in Ht. split; [|reflexivity].
           intros _. right. split; [assumption|]. now exists b.
        -- split; [discriminate|]. intros [[Hb' _] | (_ & b' & Hb' & Hd)].
           ++ contradiction.
           ++ inversion Hb'; subst b'. apply degenerate_test in Hd. congruence.
      * split; [discriminate|]. intros [[Hb' _] | (_ & b' & Hb' & _)];
          [contradiction | discriminate].
    + apply String.eqb_neq in Hw. split; [discriminate|].
      intros [[Hb' _] | [Hw' _]]; contradiction.
Qed.

Lemma getEvents_filter_true (e : event) :
  getEvents_filter e = true <-> ~ dropped e.
Proof.
  rewrite <- getEvents_filter_false. destruct (getEvents_filter e); intuition congruence.
Qed.

(** C4. The list that [getEvents] returns holds the records that pass the
    filter, each as often as the log does; its timestamps are
    non-decreasing from every record to every later one; and for every
    timestamp the records carrying it stand in the order in which the log
    has them. *)
Theorem getEvents_sorted_stable (s : sim) :
  Permutation (getEvents s) (List.filter getEvents_filter (events s))
  /\ StronglySorted (key_le time) (getEvents s)
  /\ forall t, at_time t (getEvents s)
               = at_time t (List.filter getEvents_filter (events s)).
Proof.
  split; [apply getEvents_Permutation|]. rewrite getEvents_stable_sort. split.
  - apply (stable_sort_sorted time).
  - intros t. apply (stable_sort_filter time).
Qed.

(** C3, as the code has it. A record of the log is returned by [getEvents]
    if and only if it is not dropped, where a Bolus is dropped if and only
    if its [normal] is the number 0 and its [expectedNormal] is missing or
    falsy, and a Wizard if and only if it embeds a bolus for which that
    holds. So a Wizard without embedded bolus and a record of any other
    kind are returned; so is a Bolus with [normal = 0] and a truthy [expectedNormal]
    (a non-zero number, say), and a Bolus with [normal > 0]. *)
Theorem getEvents_filter_rule (s : sim) (e : event) :
  (In e (getEvents s) <-> In e (events s) /\ ~ dropped e)
  /\ (type e = "wizard"%string -> Event.bolus e = None -> ~ dropped e)
  /\ (type e <> "bolus"%string -> type e <> "wizard"%string -> ~ dropped e)
  /\ (forall q v, type e = "bolus"%string -> normal e = Some (JNum q) ->
        (q == 0)%Q -> expectedNormal e = Some v -> truthy v = true ->
        ~ dropped e)
  /\ (forall q, type e = "bolus"%string -> normal e = Some (JNum q) ->
        (0 < q)%Q -> ~ dropped e).
Proof.
  split; [rewrite In_getEvents, getEvents_filter_true; tauto|].
  unfold dropped, degenerate. repeat split.
  - intros Hw Hb [[Hb' _] | (_ & b & Hb' & _)]; congruence.
  - intros Hb Hw [[Hb' _] | [Hw' _]]; contradiction.
  - intros q v Hb Hn Hq He Hv [[_ [_ [He' | (v' & He' & Hv')]]] | [Hw _]];
      congruence.
  - intros q Hb Hn Hq [[_ [(q' & Hn' & Hq') _]] | [Hw _]]; [|congruence].
    rewrite Hn in Hn'. inversion Hn'; subst q'. rewrite Hq' in Hq.
    now apply Qlt_irrefl in Hq.
Qed.

(** C10. A Bolus whose [normal] is the number 0 and whose [expectedNormal]
    is present but falsy (the number 0, [NaN], [null], [false], the empty
    string or [undefined]) is not returned by [getEvents], just as if the
    field were missing, and neither is a Wizard that embeds such a bolus. *)
Theorem falsy_expectedNormal_counts_as_absent (s : sim) (e b : event)
    (q : Q) (v : jsval) :
  normal b = Some (JNum q) -> (q == 0)%Q ->
  expectedNormal b = Some v -> truthy v = false ->
  (type e = "bolus"%string /\ e = b)
  \/ (type e = "wizard"%string /\ Event.bolus e = Some b) ->
  ~ In e (getEvents s)
  /\ getEvents (mkSim (events s ++ [e]) (currBasal s) (currTimestamp s))
     = getEvents s.
Proof.
  intros Hn Hq He Hv Hkind.
  assert (Hd : dropped e).
  { assert (Hb : degenerate b).
    { split; [now exists q | right; now exists v]. }
    destruct Hkind as [[Ht ->] | [Ht Hb']]; [now left | right].
    split; [assumption | now exists b]. }
  apply getEvents_filter_false in Hd. split.
  - rewrite In_getEvents. intros [_ Hk]. congruence.
  - rewrite !getEvents_stable_sort. cbn [events].
    rewrite List.filter_app. cbn [List.filter]. rewrite Hd.
    now rewrite app_nil_r.
Qed.

(** *** Worked examples of retrieval *)

(** A bolus of 2.5 units in the log is returned. *)
Lemma getEvents_filter_rule_witness :
  In (bolus_at "2014-11-05T13:00:00" (JNum (5 # 2)) None)
     (getEvents (mkSim [bolus_at "2014-11-05T13:00:00" (JNum (5 # 2)) None]
                   None None)).
Proof.
  destruct (getEvents_filter_rule
              (mkSim [bolus_at "2014-11-05T13:00:00" (JNum (5 # 2)) None]
                 None None)
              (bolus_at "2014-11-05T13:00:00" (JNum (5 # 2)) None))
    as (Hin & _ & _ & _ & Hpos).
  apply Hin. split; [now left|].
  apply (Hpos (5 # 2)); reflexivity.
Defined.

(** C3 as stated fails: a Bolus with [normal = 0] whose [expectedNormal]
    is present, with the value 0, is dropped. *)
Lemma present_zero_expectedNormal_is_dropped :
  type (bolus_at "2014-11-05T12:40:00" (JNum 0) (Some (JNum 0))) = "bolus"%string
  /\ normal (bolus_at "2014-11-05T12:40:00" (JNum 0) (Some (JNum 0)))
     = Some (JNum 0)
  /\ expectedNormal (bolus_at "2014-11-05T12:40:00" (JNum 0) (Some (JNum 0)))
     <> None
  /\ bolus (bolus_at "2014-11-05T12:40:00" (JNum 0) (Some (JNum 0)))
       (mkSim [] None None)
     = (Return tt,
        mkSim [bolus_at "2014-11-05T12:40:00" (JNum 0) (Some (JNum 0))] None
          (Some "2014-11-05T12:40:00"%string))
  /\ getEvents
       (mkSim [bolus_at "2014-11-05T12:40:00" (JNum 0) (Some (JNum 0))] None
          (Some "2014-11-05T12:40:00"%string))
     = []
  /\ ~ (forall s e, type e = "bolus"%string -> In e (events s) ->
         (~ In e (getEvents s)
          <-> (exists q, normal e = Some (JNum q) /\ (q == 0)%Q)
              /\ expectedNormal e = None)).
Proof.
  repeat (split; [first [reflexivity | discriminate]|]).
  intros H.
  destruct (H (mkSim [bolus_at "2014-11-05T12:40:00" (JNum 0) (Some (JNum 0))]
                 None (Some "2014-11-05T12:40:00"%string))
              (bolus_at "2014-11-05T12:40:00" (JNum 0) (Some (JNum 0)))
              eq_refl (or_introl eq_refl)) as [Hdrop _].
  assert (Hnone : expectedNormal
                    (bolus_at "2014-11-05T12:40:00" (JNum 0) (Some (JNum 0)))
                  = None).
  { apply Hdrop. intros []. }
  discriminate Hnone.
Qed.

(** A bolus of 0 units whose [expectedNormal] is the number 0 is not
    returned, and logging it does not change what is returned. *)
Lemma falsy_expectedNormal_counts_as_absent_witness :
  ~ In (bolus_at "2014-11-05T12:40:00" (JNum 0) (Some (JNum 0)))
       (getEvents (mkSim [bolus_at "2014-11-05T12:40:00" (JNum 0) (Some (JNum 0))]
                     None None))
  /\ ~ In (wizard_at "2014-11-05T12:40:00"
            (Some (bolus_at "2014-11-05T12:40:00" (JNum 0) (Some JNaN))))
         (getEvents
            (mkSim [wizard_at "2014-11-05T12:40:00"
                      (Some (bolus_at "2014-11-05T12:40:00" (JNum 0) (Some JNaN)))]
               None None)).
Proof.
  split.
  - apply (falsy_expectedNormal_counts_as_absent
             (mkSim [bolus_at "2014-11-05T12:40:00" (JNum 0) (Some (JNum 0))]
                None None)
             (bolus_at "2014-11-05T12:40:00" (JNum 0) (Some (JNum 0)))
             (bolus_at "2014-11-05T12:40:00" (JNum 0) (Some (JNum 0)))
             0 (JNum 0));
      try reflexivity.
    left. split; reflexivity.
  - apply (falsy_expectedNormal_counts_as_absent
             (mkSim [wizard_at "2014-11-05T12:40:00"
                       (Some (bolus_at "2014-11-05T12:40:00" (JNum 0) (Some JNaN)))]
                None None)
             (wizard_at "2014-11-05T12:40:00"
                (Some (bolus_at "2014-11-05T12:40:00" (JNum 0) (Some JNaN))))
             (bolus_at "2014-11-05T12:40:00" (JNum 0) (Some JNaN))
             0 JNaN);
      try reflexivity.
    right. split; reflexivity.
Defined.

(** ** The trailing open segment *)

Section Trailing.
Variable Date_parse : string -> Z.

(** C8. Let [B] be the last event fed to [basal], followed only by events
    for other handlers. Then [B] is the open segment at the end, and the
    log is the log from before [B] arrived, then the segment that [B]
    closed (if one was open), then the events fed after [B]: nothing is
    logged for [B] itself. If no other event fed has the identifying
    fields of [B], no record of the log and no record that [getEvents]
    returns has them. [finalBasal] returns with the state as it was. *)
Theorem trailing_basal_never_emitted (pre post : list (method * event))
    (B : event) (s : sim) :
  Forall (fun c => fst c <> Basal) post ->
  feed Date_parse (pre ++ (Basal, B) :: post) make = (Return tt, s) ->
  exists s1 B',
    feed Date_parse pre make = (Return tt, s1)
    /\ currBasal s = Some B' /\ core B' = core B
    /\ events s
       = events s1
         ++ match currBasal s1 with
            | Some open => [closed Date_parse open B]
            | None => []
            end
         ++ map snd post
    /\ finalBasal s = (Return tt, s)
    /\ ((forall c, In c (pre ++ post) -> core (snd c) <> core B) ->
        forall x, In x (events s) \/ In x (getEvents s) -> core x <> core B).
Proof.
  intros Hpost Hfeed. rewrite feed_app in Hfeed.
  destruct (feed Date_parse pre make) as [[[] | err] s1] eqn:Hpre;
    [|discriminate].
  rewrite feed_cons in Hfeed.
  destruct (js_gt (currTimestamp s1) (time B)) eqn:Hgt; [discriminate|].
  cbn [call] in Hfeed. rewrite basal_ok in Hfeed by assumption.
  cbn [snd] in Hfeed.
  apply feed_no_basal in Hfeed; [|assumption]. destruct Hfeed as [Hlog Hopen].
  apply feed_origin in Hpre. cbn [make events currBasal] in Hpre.
  destruct Hpre as [Hplog Hpopen].
  assert (Hs : exists B', currBasal s = Some B' /\ core B' = core B
            /\ events s
               = events s1
                 ++ match currBasal s1 with
                    | Some open => [closed Date_parse open B]
                    | None => []
                    end
                 ++ map snd post).
  { destruct (currBasal s1) as [open|]; cbn [events currBasal] in Hlog, Hopen.
    - eexists. split; [exact Hopen|]. split; [reflexivity|].
      rewrite Hlog. now rewrite <- app_assoc.
    - exists B. split; [exact Hopen|]. split; [reflexivity|].
      rewrite Hlog. reflexivity. }
  destruct Hs as (B' & HB' & Hcore & Hevents).
  exists s1, B'. repeat (split; [first [reflexivity | assumption]|]).
  intros Hfresh.
  assert (Hin : forall x, In x (events s) -> core x <> core B).
  { intros x Hx. rewrite Hevents in Hx.
    apply in_app_or in Hx. destruct Hx as [Hx | Hx].
    - destruct (Hplog x Hx) as [[] | [(o & Ho & _) | (c & Hc & ->)]];
        [discriminate|].
      apply Hfresh. apply in_or_app. now left.
    - apply in_app_or in Hx. destruct Hx as [Hx | Hx].
      + destruct (currBasal s1) as [open|] eqn:Hopen1; [|destruct Hx].
        destruct Hx as [<- | []]. rewrite core_closed.
        destruct (Hpopen open eq_refl) as [(o & Ho & _) | (c & Hc & ->)];
          [discriminate|].
        apply Hfresh. apply in_or_app. now left.
      + apply in_map_iff in Hx. destruct Hx as (c & <- & Hc).
        apply Hfresh. apply in_or_app. now right. }
  intros x [Hx | Hx]; [now apply Hin|].
  apply In_getEvents in Hx. now apply Hin.
Qed.

End Trailing.

(** *** A worked session *)

(** Two basal events with a reading between them, then a reading: the
    second basal event stays open and is not logged. *)
Lemma trailing_basal_never_emitted_witness :
  Forall (fun x => core x <> core (basal_at "2014-11-05T12:30:00" None None))
    (events (snd (feed sample_Date_parse
       [(Basal, basal_at "2014-11-05T12:00:00" None None);
        (Smbg, smbg_at "2014-11-05T12:00:00");
        (Basal, basal_at "2014-11-05T12:30:00" None None);
        (Smbg, smbg_at "2014-11-05T13:00:00")] make))
     ++ getEvents (snd (feed sample_Date_parse
       [(Basal, basal_at "2014-11-05T12:00:00" None None);
        (Smbg, smbg_at "2014-11-05T12:00:00");
        (Basal, basal_at "2014-11-05T12:30:00" None None);
        (Smbg, smbg_at "2014-11-05T13:00:00")] make))).
Proof.
  destruct (trailing_basal_never_emitted sample_Date_parse
              [(Basal, basal_at "2014-11-05T12:00:00" None None);
               (Smbg, smbg_at "2014-11-05T12:00:00")]
              [(Smbg, smbg_at "2014-11-05T13:00:00")]
              (basal_at "2014-11-05T12:30:00" None None)
              (snd (feed sample_Date_parse
                 [(Basal, basal_at "2014-11-05T12:00:00" None None);
                  (Smbg, smbg_at "2014-11-05T12:00:00");
                  (Basal, basal_at "2014-11-05T12:30:00" None None);
                  (Smbg, smbg_at "2014-11-05T13:00:00")] make)))
    as (s1 & B' & _ & _ & _ & _ & _ & Habsent).
  - repeat constructor. discriminate.
  - reflexivity.
  - apply List.Forall_forall. intros x Hx. apply in_app_or in Hx.
    apply Habsent; [|exact Hx].
    intros c [<- | [<- | [<- | []]]]; discriminate.
Defined.

(** The session of the specification's example: a basal event at 12:00,
    one at 12:30, a bolus of 0 units at 12:40 and one of 2.5 units at
    13:00. *)
Example session_getEvents :
  getEvents (snd (feed sample_Date_parse
     [(Basal, basal_at "2014-11-05T12:00:00" None None);
      (Basal, basal_at "2014-11-05T12:30:00" None None);
      (Bolus, bolus_at "2014-11-05T12:40:00" (JNum 0) None);
      (Bolus, bolus_at "2014-11-05T13:00:00" (JNum (5 # 2)) None)] make))
  = [basal_at "2014-11-05T12:00:00" (Some 1800000) (Some "Unknown"%string);
     bolus_at "2014-11-05T13:00:00" (JNum (5 # 2)) None].
Proof. reflexivity. Qed.

End SimulatorFacts.

(** * More on the codec *)

Module UtilMore.
Import Util UtilFacts.
#[local] Set Warnings "-clear-no-such-hyp".

Lemma Z_of_byte_bounds (b : byte) : 0 <= Z_of_byte b < 256.
Proof. unfold Z_of_byte. pose proof (Byte.to_N_bounded b). lia. Qed.

Lemma byte_of_Z_of_byte (b : byte) : byte_of_Z (Z_of_byte b) = b.
Proof.
  unfold byte_of_Z. rewrite Z.mod_small by apply Z_of_byte_bounds.
  unfold Z_of_byte. now rewrite N2Z.id, Byte.of_to_N.
Qed.

Lemma read_Some (b : buffer) (i : nat) (x : byte) :
  b !! i = Some x -> read b i = Num (Z_of_byte x).
Proof. unfold read. now intros ->. Qed.

Lemma read_None (b : buffer) (i : nat) :
  (length b <= i)%nat -> read b i = Undefined.
Proof. intros Hi. unfold read. now rewrite lookup_ge_None_2. Qed.

Lemma field_1 (b : buffer) (o : nat) (x0 : byte) :
  b !! o = Some x0 -> field b o 1 = [x0].
Proof. intros H0. unfold field. now rewrite (drop_S _ _ _ H0). Qed.

Lemma field_2 (b : buffer) (o : nat) (x0 x1 : byte) :
  b !! o = Some x0 -> b !! (o + 1)%nat = Some x1 -> field b o 2 = [x0; x1].
Proof.
  intros H0 H1. unfold field. rewrite (drop_S _ _ _ H0). cbn [take].
  replace (S o) with (o + 1)%nat by lia. now rewrite (drop_S _ _ _ H1).
Qed.

Lemma field_4 (b : buffer) (o : nat) (x0 x1 x2 x3 : byte) :
  b !! o = Some x0 -> b !! (o + 1)%nat = Some x1 ->
  b !! (o + 2)%nat = Some x2 -> b !! (o + 3)%nat = Some x3 ->
  field b o 4 = [x0; x1; x2; x3].
Proof.
  intros H0 H1 H2 H3. unfold field. rewrite (drop_S _ _ _ H0). cbn [take].
  replace (S o) with (o + 1)%nat by lia. rewrite (drop_S _ _ _ H1). cbn [take].
  replace (S (o + 1)) with (o + 2)%nat by lia. rewrite (drop_S _ _ _ H2).
  cbn [take]. replace (S (o + 2)) with (o + 3)%nat by lia.
  now rewrite (drop_S _ _ _ H3).
Qed.

Lemma lookup_within (b : buffer) (i : nat) :
  (i < length b)%nat -> exists x, b !! i = Some x.
Proof. intros Hi. now apply lookup_lt_is_Some_2. Qed.

Lemma shl_read (b : buffer) (i : nat) (x : byte) (s : Z) :
  b !! i = Some x -> s = 8 \/ s = 16 ->
  js_shl (read b i) s = Num (Z_of_byte x * 2 ^ s).
Proof.
  intros Hx Hs. rewrite (read_Some _ _ _ Hx).
  apply js_shl_byte; [apply Z_of_byte_bounds | assumption].
Qed.

Lemma get_field (c : ascii) (st : struct) (b : buffer) (o : nat) :
  structs c = Some st ->
  (o + len st <= length b)%nat ->
  get st b o = Num (le_value (field b o (len st))).
Proof.
  intros Hc Ho. structs_cases Hc; cbn [get len] in *.
  - destruct (lookup_within b o) as [x0 H0]; [lia|].
    destruct (lookup_within b (o + 1)) as [x1 H1]; [lia|].
    destruct (lookup_within b (o + 2)) as [x2 H2]; [lia|].
    destruct (lookup_within b (o + 3)) as [x3 H3]; [lia|].
    rewrite (field_4 b o x0 x1 x2 x3) by assumption.
    unfold extractInt.
    rewrite (shl_read b _ x2), (shl_read b _ x1) by (assumption || lia).
    rewrite (read_Some b _ x3), (read_Some b _ x0) by assumption.
    cbn [js_mul js_add le_value foldr].
    change (2 ^ 16) with 65536. change (2 ^ 8) with 256. f_equal. lia.
  - destruct (lookup_within b o) as [x0 H0]; [lia|].
    destruct (lookup_within b (o + 1)) as [x1 H1]; [lia|].
    rewrite (field_2 b o x0 x1) by assumption.
    unfold extractShort.
    rewrite (shl_read b _ x1) by (assumption || lia).
    rewrite (read_Some b _ x0) by assumption.
    cbn [js_add le_value foldr]. change (2 ^ 8) with 256. f_equal. lia.
  - destruct (lookup_within b o) as [x0 H0]; [lia|].
    rewrite (field_1 b o x0) by assumption.
    unfold extractByte. rewrite (read_Some b _ x0) by assumption.
    cbn [le_value foldr]. f_equal. lia.
Qed.

Lemma le_value_bounds (bs : list byte) :
  0 <= le_value bs < 2 ^ (8 * Z.of_nat (length bs)).
Proof.
  induction bs as [|x bs IH]; [cbn; lia|].
  cbn [le_value foldr length]. fold (le_value bs).
  pose proof (Z_of_byte_bounds x).
  replace (8 * Z.of_nat (S (length bs))) with (8 + 8 * Z.of_nat (length bs)) by lia.
  rewrite Z.pow_add_r by lia. change (2 ^ 8) with 256. nia.
Qed.

Lemma field_length (b : buffer) (o n : nat) :
  (o + n <= length b)%nat -> length (field b o n) = n.
Proof. intros Ho. unfold field. rewrite length_take, length_drop. lia. Qed.

(** X1. Decoding alone: a field that lies within the buffer decodes to the
    number its bytes hold, least significant byte first, which is never
    negative and below 2^(8 * width); so [extractInt] gives a value in
    [0, 2^32 - 1] whatever the four bytes are. *)
Theorem get_little_endian (c : ascii) (st : struct) (b : buffer) (o : nat) :
  structs c = Some st ->
  (o + len st <= length b)%nat ->
  get st b o = Num (le_value (field b o (len st)))
  /\ 0 <= le_value (field b o (len st)) < 2 ^ (8 * Z.of_nat (len st)).
Proof.
  intros Hc Ho. split; [now apply (get_field c)|].
  pose proof (le_value_bounds (field b o (len st))) as Hb.
  now rewrite field_length in Hb.
Qed.

Lemma get_little_endian_witness :
  extractInt [x00; x78; x56; x34; x92] 1 = Num 2452903544
  /\ 0 <= le_value (field [x00; x78; x56; x34; x92] 1 4) < 2 ^ 32.
Proof.
  apply (get_little_endian "I" (mkStruct 4 storeInt extractInt)
           [x00; x78; x56; x34; x92] 1); [reflexivity | cbn; lia].
Defined.

(** X2. Decoding past the end of the buffer raises nothing. A 4-byte field
    that does not fit decodes to [NaN]; a 1-byte field past the end decodes
    to [undefined]; a 2-byte field past the end decodes to [NaN], but one
    whose first byte is the last byte of the buffer decodes to that byte
    alone, as if the missing high byte were 0. *)
Theorem extract_past_end (b : buffer) (o : nat) :
  ((length b < o + 4)%nat -> extractInt b o = NaN)
  /\ ((length b <= o)%nat ->
      extractByte b o = Undefined /\ extractShort b o = NaN)
  /\ (forall x, b !! o = Some x -> length b = (o + 1)%nat ->
        extractShort b o = Num (Z_of_byte x)).
Proof.
  repeat split.
  - intros Ho. unfold extractInt. rewrite (read_None b (o + 3)) by lia.
    reflexivity.
  - now apply read_None.
  - unfold extractShort. rewrite (read_None b (o + 1)), (read_None b o) by lia.
    reflexivity.
  - intros x Hx Hl. unfold extractShort.
    rewrite (read_None b (o + 1)), (read_Some b o x) by (assumption || lia).
    reflexivity.
Qed.

Lemma extract_past_end_witness :
  extractInt [x01; x02; x03; x04] 1 = NaN
  /\ extractByte [x01; x02] 2 = Undefined
  /\ extractShort [x01; x02] 1 = Num 2.
Proof.
  destruct (extract_past_end [x01; x02; x03; x04] 1) as (HI & _ & _).
  destruct (extract_past_end [x01; x02] 2) as (_ & HB & _).
  destruct (extract_past_end [x01; x02] 1) as (_ & _ & HS).
  split; [apply HI; cbn; lia|].
  split; [apply HB; cbn; lia|].
  apply (HS x02); reflexivity.
Defined.

Lemma lookup_write_ne (b : buffer) (i j : nat) (v : jsv) :
  i <> j -> write b i v !! j = b !! j.
Proof. intros Hij. unfold write. now apply list_lookup_insert_ne. Qed.

(** X3. Encoding wraps around: whatever integer is stored, also a negative
    one or one beyond the width, the field that lies within the buffer
    reads back as that integer modulo 2^(8 * width); storing -1 in a 4-byte
    field reads back 2^32 - 1. *)
Theorem get_put_modulo (c : ascii) (st : struct) (v : Z) (b : buffer) (o : nat) :
  structs c = Some st ->
  (o + len st <= length b)%nat ->
  get st (put st v b o) o = Num (v mod 2 ^ (8 * Z.of_nat (len st))).
Proof.
  intros Hc Ho. structs_cases Hc; cbn [get put len] in *.
  - unfold extractInt, storeInt.
    rewrite read_write_eq by (rewrite !write_length; lia).
    rewrite (read_write_ne _ (o + 3)%nat (o + 2)%nat) by lia.
    rewrite read_write_eq by (rewrite !write_length; lia).
    rewrite !(read_write_ne _ _ (o + 1)%nat) by lia.
    rewrite read_write_eq by (rewrite !write_length; lia).
    rewrite !(read_write_ne _ _ o) by lia.
    rewrite read_write_eq by lia.
    rewrite ToUint8_and, !ToUint8_and_shr by lia.
    rewrite !Z_of_byte_of_Z_mod.
    rewrite !js_shl_byte by (try apply Z.mod_pos_bound; lia).
    cbn [js_mul js_add]. f_equal.
    change (2 ^ (8 * Z.of_nat 4)) with 4294967296.
    change (2 ^ 8) with 256. change (2 ^ 16) with 65536.
    change (2 ^ 24) with 16777216.
    Z.div_mod_to_equations. lia.
  - unfold extractShort, storeShort.
    rewrite read_write_eq by (rewrite !write_length; lia).
    rewrite !(read_write_ne _ _ o) by lia.
    rewrite read_write_eq by lia.
    rewrite ToUint8_and, !ToUint8_and_shr by lia.
    rewrite !Z_of_byte_of_Z_mod.
    rewrite !js_shl_byte by (try apply Z.mod_pos_bound; lia).
    cbn [js_add]. f_equal.
    change (2 ^ (8 * Z.of_nat 2)) with 65536. change (2 ^ 8) with 256.
    Z.div_mod_to_equations. lia.
  - unfold extractByte, storeByte.
    rewrite read_write_eq by lia.
    now rewrite ToUint8_and, Z_of_byte_of_Z_mod.
Qed.

Lemma get_put_modulo_witness :
  extractInt (storeInt (-1) [x00; x00; x00; x00] 0) 0 = Num 4294967295
  /\ extractShort (storeShort 65537 [x00; x00; x00; x00] 2) 2 = Num 1.
Proof.
  split.
  - apply (get_put_modulo "I" (mkStruct 4 storeInt extractInt) (-1)
             [x00; x00; x00; x00] 0); [reflexivity | cbn; lia].
  - apply (get_put_modulo "s" (mkStruct 2 storeShort extractShort) 65537
             [x00; x00; x00; x00] 2); [reflexivity | cbn; lia].
Defined.

Lemma put_lookup_outside (c : ascii) (st : struct) (v : Z) (b : buffer)
    (o i : nat) :
  structs c = Some st ->
  (i < o \/ o + len st <= i)%nat ->
  put st v b o !! i = b !! i.
Proof.
  intros Hc Hi. structs_cases Hc; cbn [put len] in *;
    unfold storeInt, storeShort, storeByte;
    rewrite ?lookup_write_ne by lia; reflexivity.
Qed.

(** X4. A store keeps the length of the buffer and changes no byte outside
    its field. *)
Theorem put_outside (c : ascii) (st : struct) (v : Z) (b : buffer) (o : nat) :
  structs c = Some st ->
  length (put st v b o) = length b
  /\ forall i, (i < o \/ o + len st <= i)%nat -> put st v b o !! i = b !! i.
Proof.
  intros Hc. split.
  - now apply (put_length c).
  - intros i Hi. now apply (put_lookup_outside c).
Qed.

Lemma put_outside_witness :
  length (storeShort 258 [x0a; x0b; x0c; x0d] 1) = 4%nat
  /\ storeShort 258 [x0a; x0b; x0c; x0d] 1 !! 0%nat = Some x0a
  /\ storeShort 258 [x0a; x0b; x0c; x0d] 1 !! 3%nat = Some x0d.
Proof.
  destruct (put_outside "s" (mkStruct 2 storeShort extractShort) 258
              [x0a; x0b; x0c; x0d] 1 eq_refl) as [Hlen Hout].
  split; [exact Hlen|]. split.
  - refine (Hout 0%nat _). cbn. lia.
  - refine (Hout 3%nat _). cbn. lia.
Defined.

(** X5. A store that starts at or past the end of the buffer is dropped:
    the buffer stays as it is, it does not grow, and nothing is raised. A
    field that straddles the end is written as far as the buffer goes. *)
Theorem put_past_end (c : ascii) (st : struct) (v : Z) (b : buffer) (o : nat) :
  structs c = Some st ->
  ((length b <= o)%nat -> put st v b o = b)
  /\ (forall x, length b = (o + 1)%nat -> b !! o = Some x ->
        put st v b o = <[ o := byte_of_Z v ]> b).
Proof.
  intros Hc. split.
  - intros Ho. structs_cases Hc; cbn [put];
      unfold storeInt, storeShort, storeByte, write;
      rewrite !list_insert_ge by (rewrite ?length_insert; lia); reflexivity.
  - intros x Hl Hx. structs_cases Hc; cbn [put];
      unfold storeInt, storeShort, storeByte, write;
      rewrite ?list_insert_ge by (rewrite ?length_insert; lia);
      now rewrite ToUint8_and.
Qed.

Lemma put_past_end_witness :
  storeInt 16909060 [x00; x00] 2 = [x00; x00]
  /\ storeInt 16909060 [x00; x00] 1 = [x00; x04].
Proof.
  destruct (put_past_end "I" (mkStruct 4 storeInt extractInt) 16909060
              [x00; x00] 2 eq_refl) as [Hpast _].
  destruct (put_past_end "I" (mkStruct 4 storeInt extractInt) 16909060
              [x00; x00] 1 eq_refl) as [_ Hlast].
  split; [apply Hpast; cbn; lia|].
  exact (Hlast x00 eq_refl eq_refl).
Defined.

(** *** Formats *)

Lemma total_width_cons (c : ascii) (format : list ascii) :
  total_width (c :: format) = (width c + total_width format)%nat.
Proof. reflexivity. Qed.

Lemma total_width_app (f1 f2 : list ascii) :
  total_width (f1 ++ f2) = (total_width f1 + total_width f2)%nat.
Proof.
  induction f1 as [|c f1 IH]; [reflexivity|].
  rewrite <- app_comm_cons, !total_width_cons, IH. lia.
Qed.

Lemma width_known (c : ascii) (st : struct) :
  structs c = Some st -> width c = len st.
Proof. unfold width. now intros ->. Qed.

Lemma structlen_loop_known (format : list ascii) (t : nat) :
  Forall known format ->
  structlen_loop format t = Return (t + total_width format)%nat.
Proof.
  intros Hk. revert t.
  induction Hk as [|c format [st Hc] _ IH]; intros t; cbn [structlen_loop].
  - cbn. now rewrite Nat.add_0_r.
  - rewrite total_width_cons, (width_known c st), Hc, IH by assumption.
    f_equal. lia.
Qed.

Lemma structlen_loop_unknown (format : list ascii) (t : nat) :
  Exists (fun c => structs c = None) format ->
  structlen_loop format t = Throw TypeError.
Proof.
  intros Hu. revert t.
  induction Hu as [c format Hc | c format _ IH]; intros t; cbn [structlen_loop].
  - now rewrite Hc.
  - destruct (structs c); [apply IH | reflexivity].
Qed.

Lemma known_or_unknown (format : list ascii) :
  Forall known format \/ Exists (fun c => structs c = None) format.
Proof.
  induction format as [|c format [IH | IH]].
  - left. constructor.
  - destruct (structs c) as [st|] eqn:Hc.
    + left. constructor; [now exists st | assumption].
    + right. now constructor.
  - right. now constructor.
Qed.

(** X6. [structlen] returns the sum of the widths (4 for "I", 2 for "s",
    1 for "b") exactly when every code of the format is one of the three,
    and throws a [TypeError] exactly when some code is not; the empty
    format has length 0. *)
Theorem structlen_total (format : string) (n : nat) :
  (structlen format = Return n
   <-> Forall known (list_ascii_of_string format)
       /\ n = total_width (list_ascii_of_string format))
  /\ (structlen format = Throw TypeError
      <-> Exists (fun c => structs c = None) (list_ascii_of_string format))
  /\ (forall c, known c <-> c = "I"%char \/ c = "s"%char \/ c = "b"%char)
  /\ width "I" = 4%nat /\ width "s" = 2%nat /\ width "b" = 1%nat.
Proof.
  unfold structlen. split; [|split; [|split]].
  - split.
    + intros Hn. destruct (known_or_unknown (list_ascii_of_string format)) as [Hk | Hu].
      * split; [assumption|]. rewrite structlen_loop_known in Hn by assumption.
        now injection Hn as <-.
      * rewrite structlen_loop_unknown in Hn by assumption. discriminate.
    + intros [Hk ->]. now rewrite structlen_loop_known.
  - split.
    + intros Ht. destruct (known_or_unknown (list_ascii_of_string format)) as [Hk | Hu].
      * rewrite structlen_loop_known in Ht by assumption. discriminate.
      * assumption.
    + apply structlen_loop_unknown.
  - intros c. unfold known, structs.
    destruct (Ascii.eqb c "I") eqn:HI; [apply Ascii.eqb_eq in HI|apply Ascii.eqb_neq in HI].
    { split; [now left | intros _; now eexists]. }
    destruct (Ascii.eqb c "s") eqn:Hs; [apply Ascii.eqb_eq in Hs|apply Ascii.eqb_neq in Hs].
    { split; [now (right; left) | intros _; now eexists]. }
    destruct (Ascii.eqb c "b") eqn:Hb; [apply Ascii.eqb_eq in Hb|apply Ascii.eqb_neq in Hb].
    { split; [now (right; right) | intros _; now eexists]. }
    split; [intros [st Hst]; discriminate | intros [? | [? | ?]]; contradiction].
  - repeat split.
Qed.

(** *** [pack] on any integers *)

Lemma pack_loop_length (format : list ascii) (args : list Z) (buf : buffer)
    (offset ctr : nat) :
  length (out_buf (pack_loop buf offset format args ctr)) = length buf.
Proof.
  revert args buf ctr.
  induction format as [|c format IH]; intros args buf ctr; [reflexivity|].
  destruct args as [|v args]; [reflexivity|]. cbn [pack_loop].
  destruct (structs c) as [st|] eqn:Hc; [|reflexivity].
  rewrite IH. now apply (put_length c).
Qed.

Lemma pack_loop_outside (format : list ascii) (args : list Z) (buf : buffer)
    (offset ctr i : nat) :
  (i < offset + ctr \/ offset + ctr + total_width format <= i)%nat ->
  out_buf (pack_loop buf offset format args ctr) !! i = buf !! i.
Proof.
  revert args buf ctr.
  induction format as [|c format IH]; intros args buf ctr Hi; [reflexivity|].
  destruct args as [|v args]; [reflexivity|]. cbn [pack_loop].
  rewrite total_width_cons in Hi.
  destruct (structs c) as [st|] eqn:Hc; [|reflexivity].
  rewrite (width_known c st) in Hi by assumption.
  rewrite IH by lia.
  apply (put_lookup_outside c); [assumption | lia].
Qed.

Lemma pack_loop_returns (format : list ascii) (args : list Z) (buf : buffer)
    (offset ctr : nat) :
  Forall known format -> length format = length args ->
  out_completion (pack_loop buf offset format args ctr)
  = Return (ctr + total_width format)%nat
  /\ out_console (pack_loop buf offset format args ctr) = [].
Proof.
  intros Hk. revert args buf ctr.
  induction Hk as [|c format [st Hc] _ IH]; intros args buf ctr Hlen.
  - destruct args; [|discriminate]. cbn. now rewrite Nat.add_0_r.
  - destruct args as [|v args]; [discriminate|]. injection Hlen as Hlen.
    cbn [pack_loop]. rewrite total_width_cons, (width_known c st), Hc by assumption.
    destruct (IH args (put st v buf (offset + ctr)%nat) (ctr + len st)%nat Hlen)
      as [-> ->].
    split; [f_equal; lia | reflexivity].
Qed.

Lemma length_list_ascii (s : string) :
  length (list_ascii_of_string s) = String.length s.
Proof. induction s as [|a s IH]; cbn; congruence. Qed.

(** X7. [pack] with as many integers as the format has codes, all of them
    known: it returns the record length, prints nothing, keeps the length
    of the buffer and changes no byte outside the record, for values of
    any size. *)
Theorem pack_writes_only_the_record (buf : buffer) (offset : nat)
    (format : string) (args : list Z) :
  Forall known (list_ascii_of_string format) ->
  String.length format = length args ->
  out_completion (pack buf offset format args)
  = Return (total_width (list_ascii_of_string format))
  /\ out_console (pack buf offset format args) = []
  /\ length (out_buf (pack buf offset format args)) = length buf
  /\ forall i,
       (i < offset \/ offset + total_width (list_ascii_of_string format) <= i)%nat ->
       out_buf (pack buf offset format args) !! i = buf !! i.
Proof.
  intros Hk Hlen. unfold pack, structlen.
  rewrite Hlen, Nat.eqb_refl. cbn [negb].
  rewrite structlen_loop_known by assumption.
  destruct (pack_loop_returns (list_ascii_of_string format) args buf offset 0%nat Hk)
    as [Hret Hcon]; [now rewrite length_list_ascii|].
  split; [exact Hret|]. split; [exact Hcon|].
  split; [apply pack_loop_length|].
  intros i Hi. apply pack_loop_outside. lia.
Qed.

Lemma pack_writes_only_the_record_witness :
  out_completion (pack [x0a; x0b; x0c; x0d; x0e] 1 "sb" [70000; -1]) = Return 3%nat
  /\ out_buf (pack [x0a; x0b; x0c; x0d; x0e] 1 "sb" [70000; -1]) !! 4%nat
     = Some x0e.
Proof.
  destruct (pack_writes_only_the_record [x0a; x0b; x0c; x0d; x0e] 1 "sb"
              [70000; -1]) as (Hret & _ & _ & Hout).
  - repeat constructor; now eexists.
  - reflexivity.
  - split; [exact Hret|]. refine (Hout 4%nat _). cbn. lia.
Defined.

(** X8. An unknown width code is caught before anything is written: with
    matching arity, [pack] throws a [TypeError] and leaves the whole
    buffer as it was, also the fields that precede the unknown code, and
    [unpack] throws a [TypeError] as well. *)
Theorem unknown_code_throws (buf : buffer) (offset : nat) (format : string)
    (args : list Z) (names : list string) :
  Exists (fun c => structs c = None) (list_ascii_of_string format) ->
  String.length format = length args ->
  String.length format = length names ->
  pack buf offset format args = mkOutcome buf [] (Throw TypeError)
  /\ unpack buf offset format names = mkOutcome buf [] (Throw TypeError).
Proof.
  intros Hu Ha Hn. split.
  - unfold pack, structlen. rewrite Ha, Nat.eqb_refl. cbn [negb].
    now rewrite structlen_loop_unknown.
  - unfold unpack. rewrite Hn, Nat.eqb_refl. cbn [negb].
    rewrite <- length_list_ascii in Hn.
    assert (Hloop : forall ctr result,
              unpack_loop buf offset (list_ascii_of_string format) names ctr result
              = Throw TypeError).
    { revert names Hn. induction Hu as [c l Hc | c l _ IH];
        intros names Hn ctr result.
      - destruct names as [|name names]; [discriminate|].
        cbn [unpack_loop]. now rewrite Hc.
      - destruct names as [|name names]; [discriminate|].
        injection Hn as Hn. cbn [unpack_loop].
        destruct (structs c); [now apply IH | reflexivity]. }
    now rewrite Hloop.
Qed.

Lemma unknown_code_throws_witness :
  pack [x00; x00; x00] 0 "bIx" [1; 2; 3]
  = mkOutcome [x00; x00; x00] [] (Throw TypeError)
  /\ unpack [x00; x00; x00] 0 "bIx" ["a"; "b"; "c"]%string
     = mkOutcome [x00; x00; x00] [] (Throw TypeError).
Proof.
  apply (unknown_code_throws [x00; x00; x00] 0 "bIx" [1; 2; 3]
           ["a"; "b"; "c"]%string); try reflexivity.
  right. right. now left.
Defined.

(** *** [unpack] on any buffer *)

Lemma unpack_loop_returns (buf : buffer) (offset : nat) (format : list ascii)
    (names : list string) (ctr : nat) (result : gmap string jsv) :
  Forall known format -> length format = length names ->
  exists result',
    unpack_loop buf offset format names ctr result
    = Return (result', (ctr + total_width format)%nat)
    /\ dom result' = dom result ∪ list_to_set names
    /\ (forall x, x ∉ names -> result' !! x = result !! x)
    /\ (NoDup names ->
        forall i name c st, names !! i = Some name -> format !! i = Some c ->
          structs c = Some st ->
          result' !! name
          = Some (get st buf (offset + (ctr + total_width (take i format)))%nat)).
Proof.
  intros Hk. revert names ctr result.
  induction Hk as [|c format [st Hc] _ IH]; intros names ctr result Hlen.
  - destruct names; [|discriminate]. exists result. cbn [unpack_loop].
    split; [cbn; now rewrite Nat.add_0_r|].
    split; [cbn; set_solver|]. split; [reflexivity|].
    intros _ i name c st Hi. discriminate Hi.
  - destruct names as [|name names]; [discriminate|]. injection Hlen as Hlen.
    cbn [unpack_loop]. rewrite Hc.
    destruct (IH names (ctr + len st)%nat
                (<[ name := get st buf (offset + ctr)%nat ]> result) Hlen)
      as (result' & Hrun & Hdom & Hout & Hin).
    exists result'. split; [|split; [|split]].
    + rewrite Hrun, total_width_cons, (width_known c st) by assumption.
      do 2 f_equal. lia.
    + rewrite Hdom, dom_insert_L. cbn [list_to_set]. set_solver.
    + intros x Hx. apply not_elem_of_cons in Hx. destruct Hx as [Hx1 Hx2].
      rewrite Hout by assumption. now apply lookup_insert_ne.
    + intros Hnd. apply NoDup_cons in Hnd. destruct Hnd as [Hname Hnd].
      intros [|i] name' c' st' Hi Hf Hc'; cbn in Hi, Hf.
      * injection Hi as <-. injection Hf as <-.
        rewrite Hc in Hc'. injection Hc' as <-.
        rewrite Hout by assumption. rewrite lookup_insert_eq.
        cbn [take total_width foldr]. do 2 f_equal. lia.
      * rewrite (Hin Hnd i name' c' st' Hi Hf Hc').
        cbn [take]. rewrite total_width_cons, (width_known c st) by assumption.
        do 2 f_equal. lia.
Qed.



(** X10. Where the fields of a record are read. With distinct names, none
    of them "unpack_length", the value under the [i]-th name is what the
    [get] of the [i]-th code reads at [offset] plus the widths of the codes
    before it. *)
Theorem unpack_field_offsets (buf : buffer) (offset : nat) (format : string)
    (names : list string) :
  Forall known (list_ascii_of_string format) ->
  String.length format = length names ->
  NoDup names ->
  "unpack_length"%string ∉ names ->
  exists result,
    out_completion (unpack buf offset format names) = Return result
    /\ forall i name c st,
         names !! i = Some name ->
         list_ascii_of_string format !! i = Some c ->
         structs c = Some st ->
         result !! name
         = Some (get st buf
                   (offset + total_width (take i (list_ascii_of_string format)))%nat).
Proof.
  intros Hk Hlen Hnd Hul. unfold unpack. rewrite Hlen, Nat.eqb_refl. cbn [negb].
  destruct (unpack_loop_returns buf offset (list_ascii_of_string format) names
              0%nat ∅ Hk) as (result' & Hrun & _ & _ & Hin).
  { now rewrite length_list_ascii. }
  rewrite Hrun. cbn [out_completion]. eexists. split; [reflexivity|].
  intros i name c st Hi Hf Hc. rewrite lookup_insert_ne.
  - now rewrite (Hin Hnd i name c st Hi Hf Hc).
  - intros <-. apply Hul. eapply list_elem_of_lookup_2. exact Hi.
Qed.

Lemma unpack_field_offsets_witness :
  exists result,
    out_completion
      (unpack [xaa; x01; x02; x03; x04; x05; x06] 1 "sIb"
         ["model"; "serial"; "flags"]%string)
    = Return result
    /\ result !! "serial"%string
       = Some (extractInt [xaa; x01; x02; x03; x04; x05; x06] 3).
Proof.
  destruct (unpack_field_offsets [xaa; x01; x02; x03; x04; x05; x06] 1 "sIb"
              ["model"; "serial"; "flags"]%string)
    as (result & Hrun & Hfield).
  - repeat constructor; now eexists.
  - reflexivity.
  - compute_done.
  - compute_done.
  - exists result. split; [exact Hrun|].
    exact (Hfield 1%nat "serial"%string "I"%char
             (mkStruct 4 storeInt extractInt) eq_refl eq_refl eq_refl).
Defined.

(** *** Packing in two steps *)

Lemma list_ascii_app (s1 s2 : string) :
  list_ascii_of_string (s1 ++ s2)
  = list_ascii_of_string s1 ++ list_ascii_of_string s2.
Proof.
  induction s1 as [|a s1 IH]; [reflexivity|].
  change (a :: list_ascii_of_string (s1 ++ s2)
          = a :: (list_ascii_of_string s1 ++ list_ascii_of_string s2)).
  now rewrite IH.
Qed.

Lemma pack_loop_cursor (format : list ascii) (args : list Z) (buf : buffer)
    (offset ctr offset' ctr' : nat) :
  (offset + ctr = offset' + ctr')%nat ->
  out_buf (pack_loop buf offset format args ctr)
  = out_buf (pack_loop buf offset' format args ctr').
Proof.
  revert args buf ctr ctr'.
  induction format as [|c format IH]; intros args buf ctr ctr' Heq;
    [reflexivity|].
  destruct args as [|v args]; [reflexivity|]. cbn [pack_loop].
  destruct (structs c) as [st|]; [|reflexivity].
  rewrite Heq. apply IH. lia.
Qed.

Lemma pack_loop_app (f1 f2 : list ascii) (a1 a2 : list Z) (buf : buffer)
    (offset ctr : nat) :
  Forall known f1 -> length f1 = length a1 ->
  out_buf (pack_loop buf offset (f1 ++ f2) (a1 ++ a2) ctr)
  = out_buf (pack_loop (out_buf (pack_loop buf offset f1 a1 ctr)) offset f2 a2
               (ctr + total_width f1)%nat).
Proof.
  intros Hk. revert a1 buf ctr.
  induction Hk as [|c f1 [st Hc] _ IH]; intros a1 buf ctr Hlen.
  - destruct a1; [|discriminate]. cbn. now rewrite Nat.add_0_r.
  - destruct a1 as [|v a1]; [discriminate|]. injection Hlen as Hlen.
    rewrite <- !app_comm_cons. cbn [pack_loop]. rewrite Hc.
    rewrite IH by assumption.
    rewrite total_width_cons, (width_known c st) by assumption.
    now rewrite Nat.add_assoc.
Qed.

(** X11. Packing composes: a record packed with the format [f1 ++ f2] is
    the record of [f1] packed at [offset] followed by the record of [f2]
    packed right behind it, and the length returned is the sum of the
    two. *)
Theorem pack_append (buf : buffer) (offset : nat) (f1 f2 : string)
    (a1 a2 : list Z) :
  Forall known (list_ascii_of_string f1) ->
  Forall known (list_ascii_of_string f2) ->
  String.length f1 = length a1 ->
  String.length f2 = length a2 ->
  out_buf (pack buf offset (f1 ++ f2) (a1 ++ a2))
  = out_buf (pack (out_buf (pack buf offset f1 a1))
               (offset + total_width (list_ascii_of_string f1)) f2 a2)
  /\ out_completion (pack buf offset (f1 ++ f2) (a1 ++ a2))
     = Return (total_width (list_ascii_of_string f1)
               + total_width (list_ascii_of_string f2))%nat.
Proof.
  intros Hk1 Hk2 Hl1 Hl2.
  assert (Hk : Forall known (list_ascii_of_string (f1 ++ f2))).
  { rewrite list_ascii_app. now apply Forall_app. }
  assert (Hl : String.length (f1 ++ f2) = length (a1 ++ a2)).
  { rewrite <- length_list_ascii, list_ascii_app, !length_app,
      !length_list_ascii. lia. }
  split.
  - unfold pack, structlen. rewrite Hl, Hl1, Hl2, !Nat.eqb_refl. cbn [negb].
    rewrite !structlen_loop_known by assumption.
    rewrite list_ascii_app, pack_loop_app
      by (assumption || now rewrite length_list_ascii).
    apply pack_loop_cursor. lia.
  - unfold pack, structlen. rewrite Hl, Nat.eqb_refl. cbn [negb].
    rewrite structlen_loop_known by assumption.
    destruct (pack_loop_returns (list_ascii_of_string (f1 ++ f2)) (a1 ++ a2)
                buf offset 0%nat Hk) as [-> _].
    + now rewrite length_list_ascii.
    + now rewrite list_ascii_app, total_width_app.
Qed.

Lemma pack_append_witness :
  out_buf (pack [x00; x00; x00; x00; x00] 1 "bs" [7; 258])
  = out_buf (pack (out_buf (pack [x00; x00; x00; x00; x00] 1 "b" [7])) 2 "s" [258]).
Proof.
  apply (pack_append [x00; x00; x00; x00; x00] 1 "b" "s" [7] [258]);
    try reflexivity; repeat constructor; now eexists.
Defined.

(** *** [extractString] on any buffer *)

Lemma append_assoc (s1 s2 s3 : string) :
  ((s1 ++ s2) ++ s3 = s1 ++ (s2 ++ s3))%string.
Proof.
  induction s1 as [|a s1 IH]; [reflexivity|].
  change (String a ((s1 ++ s2) ++ s3) = String a (s1 ++ (s2 ++ s3)))%string.
  now rewrite IH.
Qed.

Lemma append_empty (s : string) : (s ++ EmptyString)%string = s.
Proof.
  induction s as [|a s IH]; [reflexivity|].
  change (String a (s ++ EmptyString) = String a s)%string. now rewrite IH.
Qed.

Lemma fromCharCode_read (b : buffer) (i : nat) (x : byte) :
  b !! i = Some x -> fromCharCode (read b i) = ascii_of_byte x.
Proof.
  intros Hx. rewrite (read_Some b i x Hx). unfold fromCharCode, ToUint8.
  now rewrite byte_of_Z_of_byte.
Qed.

Lemma extractString_loop_chars (bytes : buffer) (n i : nat) (s : string) :
  (n = 0 \/ i + n <= length bytes)%nat ->
  extractString_loop bytes i n s = (s ++ chars (take n (drop i bytes)))%string.
Proof.
  revert i s. induction n as [|n IH]; intros i s Hn; cbn [extractString_loop].
  - change (s = (s ++ EmptyString)%string). now rewrite append_empty.
  - destruct Hn as [Hn | Hn]; [discriminate|].
    destruct (lookup_within bytes i) as [x Hx]; [lia|].
    rewrite IH by lia. rewrite (fromCharCode_read bytes i x Hx).
    rewrite (drop_S _ _ _ Hx). cbn [take]. rewrite append_assoc.
    reflexivity.
Qed.

(** X12. What [extractString] returns. With a third argument [len] between
    1 and the length of the buffer it returns the characters of the bytes
    from index [start] up to, not including, index [len], one character per
    byte, and the empty string when [start >= len]. Without a third
    argument, or with a third argument of 0, it returns the characters of
    all the bytes from [start] to the end of the buffer. *)
Theorem extractString_chars (bytes : buffer) (start len : nat) :
  ((0 < len <= length bytes)%nat ->
   extractString bytes start (Some len)
   = chars (take (len - start) (drop start bytes)))
  /\ extractString bytes start None = chars (drop start bytes)
  /\ extractString bytes start (Some 0%nat) = chars (drop start bytes).
Proof.
  assert (Hdefault : extractString_loop bytes start (length bytes - start)
                       EmptyString
                     = chars (drop start bytes)).
  { rewrite extractString_loop_chars by lia.
    change (chars (take (length bytes - start) (drop start bytes))
            = chars (drop start bytes)).
    rewrite take_ge; [reflexivity|]. rewrite length_drop. lia. }
  split; [|split; exact Hdefault].
  intros Hlen. unfold extractString.
  destruct len as [|len]; [lia|].
  now rewrite extractString_loop_chars by lia.
Qed.

Lemma extractString_chars_witness :
  extractString [x41; x42; x43; x44; x45] 1 (Some 4%nat) = "BCD"%string.
Proof.
  apply (proj1 (extractString_chars [x41; x42; x43; x44; x45] 1 4)).
  cbn. lia.
Defined.

(** *** Storing what was read *)

Lemma byte_of_Z_eq (z : Z) (x : byte) : z mod 256 = Z_of_byte x -> byte_of_Z z = x.
Proof. intros Hz. now rewrite <- byte_of_Z_mod, Hz, byte_of_Z_of_byte. Qed.

(** X13. Storing the value just read from a field that lies within the
    buffer leaves the buffer unchanged. *)
Theorem put_get_identity (c : ascii) (st : struct) (v : Z) (b : buffer) (o : nat) :
  structs c = Some st ->
  (o + len st <= length b)%nat ->
  get st b o = Num v ->
  put st v b o = b.
Proof.
  intros Hc Ho Hv.
  rewrite (get_field c st b o Hc Ho) in Hv. injection Hv as <-.
  structs_cases Hc; cbn [put len] in *.
  - destruct (lookup_within b o) as [x0 H0]; [lia|].
    destruct (lookup_within b (o + 1)) as [x1 H1]; [lia|].
    destruct (lookup_within b (o + 2)) as [x2 H2]; [lia|].
    destruct (lookup_within b (o + 3)) as [x3 H3]; [lia|].
    rewrite (field_4 b o x0 x1 x2 x3) by assumption.
    pose proof (Z_of_byte_bounds x0). pose proof (Z_of_byte_bounds x1).
    pose proof (Z_of_byte_bounds x2). pose proof (Z_of_byte_bounds x3).
    unfold storeInt, write. rewrite ToUint8_and, !ToUint8_and_shr by lia.
    cbn [le_value foldr].
    change (2 ^ 8) with 256. change (2 ^ 16) with 65536.
    change (2 ^ 24) with 16777216.
    set (V := Z_of_byte x0 + 256 * (Z_of_byte x1 + 256 * (Z_of_byte x2
                + 256 * (Z_of_byte x3 + 256 * 0)))).
    rewrite (byte_of_Z_eq V x0), (byte_of_Z_eq (V / 256) x1),
      (byte_of_Z_eq (V / 65536) x2), (byte_of_Z_eq (V / 16777216) x3)
      by (subst V; Z.div_mod_to_equations; lia).
    now rewrite (list_insert_id b o x0), (list_insert_id b (o + 1)%nat x1),
      (list_insert_id b (o + 2)%nat x2), (list_insert_id b (o + 3)%nat x3)
      by assumption.
  - destruct (lookup_within b o) as [x0 H0]; [lia|].
    destruct (lookup_within b (o + 1)) as [x1 H1]; [lia|].
    rewrite (field_2 b o x0 x1) by assumption.
    pose proof (Z_of_byte_bounds x0). pose proof (Z_of_byte_bounds x1).
    unfold storeShort, write. rewrite ToUint8_and, !ToUint8_and_shr by lia.
    cbn [le_value foldr]. change (2 ^ 8) with 256.
    set (V := Z_of_byte x0 + 256 * (Z_of_byte x1 + 256 * 0)).
    rewrite (byte_of_Z_eq V x0), (byte_of_Z_eq (V / 256) x1)
      by (subst V; Z.div_mod_to_equations; lia).
    now rewrite (list_insert_id b o x0), (list_insert_id b (o + 1)%nat x1)
      by assumption.
  - destruct (lookup_within b o) as [x0 H0]; [lia|].
    rewrite (field_1 b o x0) by assumption.
    pose proof (Z_of_byte_bounds x0).
    unfold storeByte, write. rewrite ToUint8_and. cbn [le_value foldr].
    rewrite (byte_of_Z_eq _ x0) by (Z.div_mod_to_equations; lia).
    now rewrite (list_insert_id b o x0) by assumption.
Qed.

Lemma put_get_identity_witness :
  storeInt 4275878552 [x00; x98; xba; xdc; xfe] 1 = [x00; x98; xba; xdc; xfe].
Proof.
  apply (put_get_identity "I" (mkStruct 4 storeInt extractInt) 4275878552
           [x00; x98; xba; xdc; xfe] 1); [reflexivity | cbn; lia | reflexivity].
Defined.

(** *** [copyBytes] *)

Lemma write_read (buf bytes : buffer) (k i : nat) (x : byte) :
  bytes !! i = Some x -> write buf k (read bytes i) = <[ k := x ]> buf.
Proof.
  intros Hx. rewrite (read_Some bytes i x Hx). unfold write, ToUint8.
  now rewrite byte_of_Z_of_byte.
Qed.

Lemma copyBytes_loop_lookup (bytes : buffer) (offset n : nat) :
  forall (buf : buffer) (i j : nat),
    (i + n <= length bytes)%nat ->
    (offset + i + n <= length buf)%nat ->
    copyBytes_loop buf offset bytes i n !! j
    = if decide (offset + i <= j < offset + i + n)%nat
      then bytes !! (j - offset)%nat
      else buf !! j.
Proof.
  induction n as [|n IH]; intros buf i j Hb Hbuf; cbn [copyBytes_loop].
  - destruct (decide _) as [Hj|]; [lia | reflexivity].
  - destruct (lookup_within bytes i) as [x Hx]; [lia|].
    rewrite (write_read buf bytes _ i x Hx).
    rewrite IH by (rewrite ?length_insert; lia).
    destruct (decide (offset + S i <= j < offset + S i + n)%nat) as [Hj | Hj].
    + destruct (decide _) as [|Hj']; [reflexivity | lia].
    + destruct (decide (offset + i <= j < offset + i + S n)%nat) as [Hj' | Hj'].
      * assert (j = (offset + i)%nat) as -> by lia.
        rewrite list_lookup_insert_eq by lia.
        replace (offset + i - offset)%nat with i by lia. now rewrite Hx.
      * apply list_lookup_insert_ne. lia.
Qed.

Lemma copyBytes_loop_length (bytes : buffer) (offset n : nat) :
  forall (buf : buffer) (i : nat),
    length (copyBytes_loop buf offset bytes i n) = length buf.
Proof.
  induction n as [|n IH]; intros buf i; cbn [copyBytes_loop]; [reflexivity|].
  rewrite IH. apply write_length.
Qed.

(** X14. [copyBytes] with a source of at least [bytecount] bytes and room
    for them at [offset]: it returns [bytecount], and the buffer then holds
    its old bytes before [offset], the first [bytecount] bytes of the
    source, and its old bytes behind them. *)
Theorem copyBytes_splices (buf bytes : buffer) (offset bytecount : nat) :
  (bytecount <= length bytes)%nat ->
  (offset + bytecount <= length buf)%nat ->
  copyBytes buf offset bytes bytecount
  = (take offset buf ++ take bytecount bytes ++ drop (offset + bytecount) buf,
     bytecount).
Proof.
  intros Hb Hbuf. unfold copyBytes. f_equal. apply list_eq. intros j.
  rewrite copyBytes_loop_lookup by lia.
  destruct (decide (offset + 0 <= j < offset + 0 + bytecount)%nat) as [Hj | Hj].
  - rewrite lookup_app_r by (rewrite length_take; lia).
    rewrite length_take, Nat.min_l by lia.
    rewrite lookup_app_l by (rewrite length_take; lia).
    now rewrite lookup_take_lt by lia.
  - destruct (decide (j < offset)%nat) as [Hlt | Hge].
    + rewrite lookup_app_l by (rewrite length_take; lia).
      now rewrite lookup_take_lt by lia.
    + rewrite lookup_app_r by (rewrite length_take; lia).
      rewrite length_take, Nat.min_l by lia.
      rewrite lookup_app_r by (rewrite length_take; lia).
      rewrite length_take, Nat.min_l by lia.
      rewrite lookup_drop. f_equal. lia.
Qed.

Lemma copyBytes_splices_witness :
  copyBytes [x00; x00; x00; x00; x00] 1 [x0a; x0b; x0c] 2
  = ([x00; x0a; x0b; x00; x00], 2%nat).
Proof.
  apply (copyBytes_splices [x00; x00; x00; x00; x00] [x0a; x0b; x0c] 1 2);
    cbn; lia.
Defined.

(** X15. [copyBytes] never changes the length of the buffer, whatever the
    offset and the count; bytes that would land past its end are dropped,
    and a count beyond the source fills in zeros. *)
Theorem copyBytes_keeps_length (buf bytes : buffer) (offset bytecount : nat) :
  length (fst (copyBytes buf offset bytes bytecount)) = length buf
  /\ snd (copyBytes buf offset bytes bytecount) = bytecount
  /\ ((length buf <= offset)%nat -> fst (copyBytes buf offset bytes bytecount) = buf)
  /\ (forall j, (length bytes <= j < bytecount)%nat ->
        (offset + j < length buf)%nat ->
        fst (copyBytes buf offset bytes bytecount) !! (offset + j)%nat = Some x00).
Proof.
  unfold copyBytes. cbn [fst snd].
  split; [apply copyBytes_loop_length|]. split; [reflexivity|]. split.
  - intros Ho. generalize 0%nat.
    induction bytecount as [|n IH]; intros i; cbn [copyBytes_loop]; [reflexivity|].
    unfold write. rewrite list_insert_ge by lia. apply IH.
  - assert (Hgen : forall n i (b : buffer) j,
              (i <= j < i + n)%nat -> (length bytes <= j)%nat ->
              (offset + j < length b)%nat ->
              copyBytes_loop b offset bytes i n !! (offset + j)%nat = Some x00).
    { induction n as [|n IH]; intros i b j Hj Hjb Hlen; [lia|].
      cbn [copyBytes_loop].
      destruct (decide (i = j)) as [-> | Hne].
      - assert (Hkeep : forall m k (b' : buffer),
                  (j < k)%nat -> b' !! (offset + j)%nat = Some x00 ->
                  copyBytes_loop b' offset bytes k m !! (offset + j)%nat = Some x00).
        { induction m as [|m IHm]; intros k b' Hk Hb'; [exact Hb'|].
          cbn [copyBytes_loop]. apply IHm; [lia|].
          unfold write. rewrite list_lookup_insert_ne by lia. exact Hb'. }
        apply Hkeep; [lia|].
        rewrite (read_None bytes j) by lia. unfold write.
        now rewrite list_lookup_insert_eq by lia.
      - apply IH; [lia | lia | now rewrite write_length]. }
    intros j Hj Hlen. apply Hgen; [lia | lia | assumption].
Qed.

Lemma copyBytes_keeps_length_witness :
  fst (copyBytes [x11; x22; x33] 5 [x0a; x0b] 2) = [x11; x22; x33]
  /\ fst (copyBytes [x11; x22; x33] 0 [x0a] 3) !! 2%nat = Some x00.
Proof.
  destruct (copyBytes_keeps_length [x11; x22; x33] [x0a; x0b] 5 2)
    as (_ & _ & Hpast & _).
  destruct (copyBytes_keeps_length [x11; x22; x33] [x0a] 0 3)
    as (_ & _ & _ & Hzero).
  split; [apply Hpast; cbn; lia|].
  refine (Hzero 2%nat _ _); cbn; lia.
Defined.

End UtilMore.

(** * More on the simulator *)

Module SimulatorMore.
Import Event Simulator SimulatorFacts.

Section Sessions.
Variable Date_parse : string -> Z.

Lemma call_timestamp (m : method) (e : event) (s : sim) :
  js_gt (currTimestamp s) (time e) = false ->
  currTimestamp (snd (call Date_parse m e s)) = Some (time e).
Proof.
  intros Hgt. destruct (method_eq_dec m Basal) as [-> | Hm].
  - cbn [call]. rewrite basal_ok by assumption. cbn [snd].
    now destruct (currBasal s).
  - now rewrite call_simple_ok.
Qed.

Lemma call_log (m : method) (e : event) (s : sim) :
  exists l, events (snd (call Date_parse m e s)) = events s ++ l
            /\ (length l + open_count (snd (call Date_parse m e s))
                = open_count s
                  + (if js_gt (currTimestamp s) (time e) then 0 else 1))%nat.
Proof.
  destruct (js_gt (currTimestamp s) (time e)) eqn:Hgt.
  - rewrite call_throw by assumption. exists []. cbn [snd].
    split; [now rewrite app_nil_r | cbn; lia].
  - destruct (method_eq_dec m Basal) as [-> | Hm].
    + cbn [call]. rewrite basal_ok by assumption. cbn [snd]. unfold open_count.
      destruct (currBasal s) as [open|]; cbn [events currBasal].
      * eexists. split; [reflexivity | cbn; lia].
      * exists []. split; [now rewrite app_nil_r | cbn; lia].
    + rewrite call_simple_ok by assumption. cbn [snd events]. unfold open_count.
      cbn [currBasal]. eexists. split; [reflexivity | cbn; lia].
Qed.

(** X16. The log only grows: whatever is fed, and whether the feed returns
    or throws, the log afterwards is the log from before with records
    appended; no record is removed, replaced or reordered. *)
Theorem feed_log_grows (calls : list (method * event)) (s : sim) :
  exists l, events (snd (feed Date_parse calls s)) = events s ++ l.
Proof.
  revert s. induction calls as [|[m e] calls IH]; intros s.
  - exists []. cbn. now rewrite app_nil_r.
  - rewrite feed_cons.
    destruct (js_gt (currTimestamp s) (time e)).
    + exists []. cbn. now rewrite app_nil_r.
    + destruct (IH (snd (call Date_parse m e s))) as [l2 Hl2].
      destruct (call_log m e s) as (l1 & Hl1 & _).
      exists (l1 ++ l2). now rewrite Hl2, Hl1, app_assoc.
Qed.

Lemma feed_returns_iff (calls : list (method * event)) (s : sim) :
  (exists s', feed Date_parse calls s = (Return tt, s'))
  <-> Sorted (key_le time) (map snd calls)
      /\ (forall c, head calls = Some c -> in_order s (snd c)).
Proof.
  revert s. induction calls as [|[m e] calls IH]; intros s.
  - split.
    + intros _. split; [constructor | intros c Hc; discriminate Hc].
    + intros _. now exists s.
  - rewrite feed_cons. cbn [map snd head].
    destruct (js_gt (currTimestamp s) (time e)) eqn:Hgt.
    + split.
      * intros [s' Hs']. discriminate Hs'.
      * intros [_ Hhd]. specialize (Hhd (m, e) eq_refl).
        apply js_gt_false in Hhd. cbn [snd] in Hhd. congruence.
    + rewrite IH. pose proof (call_timestamp m e s Hgt) as Hts. split.
      * intros [Hsorted Hhd]. split.
        -- constructor; [assumption|].
           destruct calls as [|[m' e'] calls]; constructor.
           specialize (Hhd (m', e') eq_refl). unfold in_order in Hhd.
           now rewrite Hts in Hhd.
        -- intros c [= <-]. now apply js_gt_false.
      * intros [Hsorted _]. inversion Hsorted as [|x l Hs Hhd]; subst.
        split; [assumption|].
        intros [m' e'] Hc. destruct calls as [|c' calls]; [discriminate|].
        injection Hc as ->. cbn [map snd] in Hhd.
        inversion Hhd; subst. unfold in_order. now rewrite Hts.
Qed.

(** X17. A new simulator accepts a sequence of events exactly when their
    timestamps are non-decreasing from each event to the next, whichever
    handlers they go to; equal timestamps are accepted. *)
Theorem feed_returns_iff_sorted (calls : list (method * event)) :
  (exists s, feed Date_parse calls make = (Return tt, s))
  <-> Sorted (key_le time) (map snd calls).
Proof.
  rewrite feed_returns_iff. split; [tauto|].
  intros Hs. split; [assumption|]. intros c _. exact I.
Qed.

(** X18. The feed stops at the first event that is out of order: the call
    throws with the last accepted timestamp and that event, the state is
    the one the events before it left, and the events after it have no
    effect. *)
Theorem feed_stops_at_violation (pre post : list (method * event))
    (m : method) (e : event) (s s1 : sim) (t : string) :
  feed Date_parse pre s = (Return tt, s1) ->
  currTimestamp s1 = Some t ->
  String.ltb (time e) t = true ->
  feed Date_parse (pre ++ (m, e) :: post) s
  = (Throw (OrderingViolation (Some t) e), s1).
Proof.
  intros Hpre Ht Hlt. rewrite feed_app, Hpre, feed_cons, Ht.
  cbn [js_gt]. now rewrite Hlt.
Qed.

Lemma is_basal_true (m : method) (e : event) :
  is_basal (m, e) = true <-> m = Basal.
Proof.
  unfold is_basal. cbn [fst]. destruct (method_eq_dec m Basal); split;
    congruence.
Qed.

Lemma feed_count (calls : list (method * event)) (s s' : sim) :
  feed Date_parse calls s = (Return tt, s') ->
  (length (events s') + open_count s'
   = length (events s) + open_count s + length calls)%nat
  /\ (open_count s' = 1%nat
      <-> open_count s = 1%nat \/ Exists (fun c => is_basal c = true) calls).
Proof.
  revert s. induction calls as [|[m e] calls IH]; intros s.
  - cbn. intros [= <-]. split; [lia|]. split; [now left|].
    intros [? | Hex]; [assumption | inversion Hex].
  - rewrite feed_cons.
    destruct (js_gt (currTimestamp s) (time e)) eqn:Hgt; [discriminate|].
    intros Hfeed. apply IH in Hfeed. destruct Hfeed as [Hlen Hopen].
    destruct (call_log m e s) as (l & Hl & Hcount). rewrite Hgt in Hcount.
    rewrite Hl, length_app in Hlen. cbn [length]. split; [lia|].
    rewrite Hopen, Exists_cons, is_basal_true.
    destruct (method_eq_dec m Basal) as [-> | Hm].
    + cbn [call]. rewrite basal_ok by assumption. cbn [snd]. unfold open_count.
      split; intros _; [right; now left | left].
      now destruct (currBasal s).
    + rewrite call_simple_ok by assumption. cbn [snd]. unfold open_count.
      cbn [currBasal]. split.
      * intros [H | H]; [now left | right; now right].
      * intros [H | [H | H]]; [now left | contradiction | now right].
Qed.

(** X19. Every event that a new simulator accepts is logged, except one:
    once a basal event has been fed, the log holds one record less than
    the number of events fed, and one segment is open; while no basal
    event has been fed, the log holds as many records as events were fed. *)
Theorem feed_log_length (calls : list (method * event)) (s : sim) :
  feed Date_parse calls make = (Return tt, s) ->
  (Exists (fun c => is_basal c = true) calls ->
   S (length (events s)) = length calls /\ is_Some (currBasal s))
  /\ (Forall (fun c => is_basal c = false) calls ->
      length (events s) = length calls /\ currBasal s = None).
Proof.
  intros Hfeed. apply feed_count in Hfeed.
  unfold open_count, make in Hfeed. cbn [events length currBasal] in Hfeed.
  destruct Hfeed as [Hlen Hopen]. split.
  - intros Hex. destruct (currBasal s) as [o|].
    + split; [lia | now exists o].
    + exfalso. assert (0 = 1)%nat as H by (apply Hopen; now right).
      discriminate H.
  - intros Hall. destruct (currBasal s) as [o|]; [|split; [lia | reflexivity]].
    exfalso. destruct Hopen as [Hopen _].
    destruct (Hopen eq_refl) as [H | Hex]; [discriminate H|].
    apply Exists_exists in Hex. destruct Hex as (c & Hc & Hb).
    rewrite Forall_forall in Hall. specialize (Hall c Hc). congruence.
Qed.

(** *** Sessions of basal events *)

Lemma core_time (a b : event) : core a = core b -> time a = time b.
Proof. intros H. now injection H. Qed.

Lemma basal_run (bs : list event) :
  forall (s s' : sim) (o x0 : event),
    currBasal s = Some o ->
    core o = core x0 -> duration o = duration x0 ->
    feed Date_parse (map (pair Basal) bs) s = (Return tt, s') ->
    exists segs,
      events s' = events s ++ segs
      /\ length segs = length bs
      /\ forall i x y seg,
           (x0 :: bs) !! i = Some x -> bs !! i = Some y ->
           segs !! i = Some seg ->
           core seg = core x
           /\ scheduleName seg = Some "Unknown"%string
           /\ duration seg = closing_duration Date_parse x y.
Proof.
  induction bs as [|b bs IH]; intros s s' o x0 Ho Hcore Hdur Hfeed.
  - cbn in Hfeed. injection Hfeed as <-. exists [].
    split; [now rewrite app_nil_r|]. split; [reflexivity|].
    intros i x y seg _ Hy. discriminate Hy.
  - cbn [map] in Hfeed. rewrite feed_cons in Hfeed.
    destruct (js_gt (currTimestamp s) (time b)) eqn:Hgt; [discriminate|].
    cbn [call] in Hfeed. rewrite basal_ok in Hfeed by assumption.
    rewrite Ho in Hfeed. cbn [snd] in Hfeed.
    eapply (IH _ _ _ b) in Hfeed; [|reflexivity|reflexivity|reflexivity].
    destruct Hfeed as (segs & Hlog & Hlen & Hsegs). cbn [events] in Hlog.
    exists (closed Date_parse o b :: segs).
    split; [now rewrite Hlog, <- app_assoc|].
    split; [cbn; now rewrite Hlen|].
    intros [|i] x y seg Hx Hy Hseg; cbn in Hx, Hy, Hseg.
    + injection Hx as <-. injection Hy as <-. injection Hseg as <-.
      split; [now rewrite core_closed|]. split; [reflexivity|].
      unfold closing_duration. cbn [closed duration].
      now rewrite Hdur, (core_time _ _ Hcore).
    + eapply Hsegs; eassumption.
Qed.

(** X20. A session of basal events only, accepted by a new simulator: the
    log holds one record for every event but the last, in the order fed;
    the record of an event has the identifying fields of that event, the
    schedule name "Unknown", and as duration the one the event came with
    or, if it came with none, the time from it to the event fed next. *)
Theorem basal_session_log (bs : list event) (s : sim) :
  feed Date_parse (map (pair Basal) bs) make = (Return tt, s) ->
  length (events s) = pred (length bs)
  /\ forall i x y,
       bs !! i = Some x -> bs !! S i = Some y ->
       exists seg,
         events s !! i = Some seg
         /\ core seg = core x
         /\ scheduleName seg = Some "Unknown"%string
         /\ duration seg = closing_duration Date_parse x y.
Proof.
  destruct bs as [|b0 bs].
  - cbn. intros [= <-]. split; [reflexivity|]. intros i x y Hx. discriminate Hx.
  - cbn [map]. rewrite feed_cons. cbn [make currTimestamp js_gt call].
    rewrite basal_ok by reflexivity. cbn [snd make currBasal events].
    intros Hfeed.
    eapply (basal_run bs _ _ b0 b0) in Hfeed; [|reflexivity..].
    destruct Hfeed as (segs & Hlog & Hlen & Hsegs). cbn [events app] in Hlog.
    rewrite Hlog. split; [exact Hlen|].
    intros i x y Hx Hy. cbn in Hy.
    destruct (lookup_lt_is_Some_2 segs i) as [seg Hseg].
    { rewrite Hlen. eapply lookup_lt_Some. exact Hy. }
    exists seg. split; [exact Hseg|]. eapply Hsegs; eassumption.
Qed.

(** X24. After a feed that returns, the last timestamp is the time of the
    event fed last, and no event fed before it has a later time. *)
Theorem feed_last_timestamp (pre : list (method * event)) (m : method)
    (e : event) (s s' : sim) :
  feed Date_parse (pre ++ [(m, e)]) s = (Return tt, s') ->
  currTimestamp s' = Some (time e)
  /\ Forall (fun c => key_le time (snd c) e) pre.
Proof.
  intros Hfeed. split.
  - rewrite feed_app in Hfeed.
    destruct (feed Date_parse pre s) as [[[] | err] s1]; [|discriminate].
    rewrite feed_cons in Hfeed.
    destruct (js_gt (currTimestamp s1) (time e)) eqn:Hgt; [discriminate|].
    cbn [feed] in Hfeed. injection Hfeed as <-. now apply call_timestamp.
  - assert (Hs : Sorted (key_le time) (map snd (pre ++ [(m, e)]))).
    { apply (feed_returns_iff (pre ++ [(m, e)]) s). now exists s'. }
    apply Sorted_StronglySorted in Hs; [|intros a b c; apply leb_trans].
    rewrite map_app in Hs. cbn [map snd] in Hs.
    clear Hfeed. induction pre as [|c pre IH]; [constructor|].
    cbn [map app] in Hs. inversion Hs as [|x l Hs' Hall]; subst.
    constructor; [|now apply IH].
    rewrite List.Forall_forall in Hall. apply Hall.
    apply in_or_app. right. now left.
Qed.

End Sessions.

(** *** Worked sessions *)

Lemma feed_stops_at_violation_witness :
  feed sample_Date_parse
    [(Smbg, smbg_at "2014-11-05T12:30:00");
     (Basal, basal_at "2014-11-05T12:00:00" None None);
     (Smbg, smbg_at "2014-11-05T13:00:00")] make
  = (Throw (OrderingViolation (Some "2014-11-05T12:30:00"%string)
              (basal_at "2014-11-05T12:00:00" None None)),
     mkSim [smbg_at "2014-11-05T12:30:00"] None
       (Some "2014-11-05T12:30:00"%string)).
Proof.
  apply (feed_stops_at_violation sample_Date_parse
           [(Smbg, smbg_at "2014-11-05T12:30:00")]
           [(Smbg, smbg_at "2014-11-05T13:00:00")] Basal
           (basal_at "2014-11-05T12:00:00" None None) make
           (mkSim [smbg_at "2014-11-05T12:30:00"] None
              (Some "2014-11-05T12:30:00"%string))
           "2014-11-05T12:30:00"); reflexivity.
Defined.

Lemma feed_log_length_witness :
  S (length (events (snd (feed sample_Date_parse
       [(Basal, basal_at "2014-11-05T12:00:00" None None);
        (Smbg, smbg_at "2014-11-05T12:30:00");
        (Basal, basal_at "2014-11-05T12:30:00" None None)] make))))
  = 3%nat.
Proof.
  destruct (feed_log_length sample_Date_parse
              [(Basal, basal_at "2014-11-05T12:00:00" None None);
               (Smbg, smbg_at "2014-11-05T12:30:00");
               (Basal, basal_at "2014-11-05T12:30:00" None None)]
              (snd (feed sample_Date_parse
                 [(Basal, basal_at "2014-11-05T12:00:00" None None);
                  (Smbg, smbg_at "2014-11-05T12:30:00");
                  (Basal, basal_at "2014-11-05T12:30:00" None None)] make))
              eq_refl) as [Hbasal _].
  apply Hbasal. left. reflexivity.
Defined.

Lemma basal_session_log_witness :
  exists seg,
    events (snd (feed sample_Date_parse
      (map (pair Basal)
         [basal_at "2014-11-05T12:00:00" None None;
          basal_at "2014-11-05T12:30:00" (Some 60000) None;
          basal_at "2014-11-05T13:00:00" None None]) make)) !! 0%nat
    = Some seg
    /\ duration seg = Some 1800000.
Proof.
  destruct (basal_session_log sample_Date_parse
              [basal_at "2014-11-05T12:00:00" None None;
               basal_at "2014-11-05T12:30:00" (Some 60000) None;
               basal_at "2014-11-05T13:00:00" None None]
              (snd (feed sample_Date_parse
                 (map (pair Basal)
                    [basal_at "2014-11-05T12:00:00" None None;
                     basal_at "2014-11-05T12:30:00" (Some 60000) None;
                     basal_at "2014-11-05T13:00:00" None None]) make))
              eq_refl) as [_ Hsegs].
  destruct (Hsegs 0%nat (basal_at "2014-11-05T12:00:00" None None)
              (basal_at "2014-11-05T12:30:00" (Some 60000) None)
              eq_refl eq_refl) as (seg & Hseg & _ & _ & Hd).
  exists seg. split; [exact Hseg | exact Hd].
Defined.

Lemma feed_last_timestamp_witness :
  currTimestamp (snd (feed sample_Date_parse
     ([(Smbg, smbg_at "2014-11-05T12:00:00")]
      ++ [(Basal, basal_at "2014-11-05T12:30:00" None None)]) make))
  = Some "2014-11-05T12:30:00"%string.
Proof.
  apply (feed_last_timestamp sample_Date_parse
           [(Smbg, smbg_at "2014-11-05T12:00:00")] Basal
           (basal_at "2014-11-05T12:30:00" None None) make
           (snd (feed sample_Date_parse
              ([(Smbg, smbg_at "2014-11-05T12:00:00")]
               ++ [(Basal, basal_at "2014-11-05T12:30:00" None None)]) make))
           eq_refl).
Defined.

(** *** Retrieval from an ordered log *)

Lemma stable_sort_sorted_id {A : Type} (key : A -> string) (l : list A) :
  Sorted (key_le key) l -> stable_sort key l = l.
Proof.
  unfold stable_sort. induction 1 as [|x l Hs IH Hhd]; [reflexivity|].
  cbn [foldr]. rewrite IH. destruct Hhd as [|y l Hxy]; [reflexivity|].
  cbn [stable_insert]. unfold key_le in Hxy. now rewrite Hxy.
Qed.

Lemma HdRel_filter {A : Type} (R : A -> A -> Prop) (f : A -> bool) (x : A)
    (l : list A) :
  Forall (R x) l -> HdRel R x (List.filter f l).
Proof.
  induction 1 as [|y l Hy Hl IH]; cbn [List.filter]; [constructor|].
  destruct (f y); [now constructor | assumption].
Qed.

Lemma filter_StronglySorted {A : Type} (R : A -> A -> Prop) (f : A -> bool)
    (l : list A) :
  StronglySorted R l -> Sorted R (List.filter f l).
Proof.
  induction 1 as [|x l Hs IH Hx]; cbn [List.filter]; [constructor|].
  destruct (f x); [|assumption]. constructor; [assumption|].
  now apply HdRel_filter.
Qed.

Lemma key_le_trans {A : Type} (key : A -> string) :
  Relations_1.Transitive (key_le key).
Proof. intros a b c. unfold key_le. apply leb_trans. Qed.

Lemma stable_sort_filter_id (f : event -> bool) (l : list event) :
  Sorted (key_le time) l ->
  stable_sort time (List.filter f l) = List.filter f l.
Proof.
  intros Hs. apply stable_sort_sorted_id. apply filter_StronglySorted.
  apply Sorted_StronglySorted; [apply key_le_trans | assumption].
Qed.

(** X21. Retrieval does not reorder a log that is in order: when the
    timestamps of the log are non-decreasing, [getEvents] returns the
    records that pass the filter in the order of the log, and the whole
    log if it holds no bolus and no wizard record. *)
Theorem getEvents_of_ordered_log (s : sim) :
  Sorted (key_le time) (events s) ->
  getEvents s = List.filter getEvents_filter (events s)
  /\ (Forall (fun e => type e <> "bolus"%string /\ type e <> "wizard"%string)
        (events s) ->
      getEvents s = events s).
Proof.
  intros Hs.
  assert (Hget : getEvents s = List.filter getEvents_filter (events s)).
  { rewrite getEvents_stable_sort. now apply stable_sort_filter_id. }
  split; [exact Hget|]. intros Hkinds. rewrite Hget.
  apply forallb_filter_id. apply forallb_forall. intros e He.
  rewrite Forall_forall in Hkinds. apply list_elem_of_In in He.
  destruct (Hkinds e He) as [Hb Hw]. unfold getEvents_filter.
  apply String.eqb_neq in Hb, Hw. now rewrite Hb, Hw.
Qed.

(** X22. Retrieval is idempotent on its result: a simulator whose log is
    the list that [getEvents] returned gives that list back. *)
Theorem getEvents_idempotent (s : sim) :
  getEvents (mkSim (getEvents s) (currBasal s) (currTimestamp s)) = getEvents s.
Proof.
  rewrite (getEvents_stable_sort (mkSim _ _ _)). cbn [events].
  rewrite stable_sort_filter_id.
  - apply forallb_filter_id. apply forallb_forall.
    intros x Hx. apply In_getEvents in Hx. tauto.
  - apply StronglySorted_Sorted. rewrite getEvents_stable_sort.
    apply (stable_sort_sorted time).
Qed.

Section Sessions2.
Variable Date_parse : string -> Z.

(** X23. A session without basal events, accepted by a new simulator:
    [getEvents] returns the events fed that pass the filter, in the order
    in which they were fed. *)
Theorem getEvents_without_basal (calls : list (method * event)) (s : sim) :
  Forall (fun c => fst c <> Basal) calls ->
  feed Date_parse calls make = (Return tt, s) ->
  getEvents s = List.filter getEvents_filter (map snd calls).
Proof.
  intros Hnb Hfeed.
  assert (Hsorted : Sorted (key_le time) (map snd calls)).
  { apply (feed_returns_iff Date_parse calls make). now exists s. }
  apply (feed_no_basal Date_parse) in Hfeed; [|assumption].
  destruct Hfeed as [Hlog _]. cbn [make events app] in Hlog.
  rewrite getEvents_stable_sort, Hlog. now apply stable_sort_filter_id.
Qed.

End Sessions2.

Lemma getEvents_of_ordered_log_witness :
  getEvents (mkSim [smbg_at "2014-11-05T12:00:00";
                    basal_at "2014-11-05T12:00:00" (Some 1800000) None;
                    smbg_at "2014-11-05T12:30:00"] None None)
  = [smbg_at "2014-11-05T12:00:00";
     basal_at "2014-11-05T12:00:00" (Some 1800000) None;
     smbg_at "2014-11-05T12:30:00"].
Proof.
  apply (getEvents_of_ordered_log
           (mkSim [smbg_at "2014-11-05T12:00:00";
                   basal_at "2014-11-05T12:00:00" (Some 1800000) None;
                   smbg_at "2014-11-05T12:30:00"] None None)).
  - repeat constructor.
  - repeat constructor; discriminate.
Defined.

Lemma getEvents_without_basal_witness :
  getEvents (snd (feed sample_Date_parse
     [(Bolus, bolus_at "2014-11-05T12:00:00" (JNum 0) None);
      (Smbg, smbg_at "2014-11-05T12:00:00");
      (Bolus, bolus_at "2014-11-05T12:30:00" (JNum (5 # 2)) None)] make))
  = [smbg_at "2014-11-05T12:00:00";
     bolus_at "2014-11-05T12:30:00" (JNum (5 # 2)) None].
Proof.
  apply (getEvents_without_basal sample_Date_parse
           [(Bolus, bolus_at "2014-11-05T12:00:00" (JNum 0) None);
            (Smbg, smbg_at "2014-11-05T12:00:00");
            (Bolus, bolus_at "2014-11-05T12:30:00" (JNum (5 # 2)) None)]
           (snd (feed sample_Date_parse
              [(Bolus, bolus_at "2014-11-05T12:00:00" (JNum 0) None);
               (Smbg, smbg_at "2014-11-05T12:00:00");
               (Bolus, bolus_at "2014-11-05T12:30:00" (JNum (5 # 2)) None)] make))).
  - repeat constructor; discriminate.
  - reflexivity.
Defined.

End SimulatorMore.
